(** * The remote end of a relationship joint (src/lib/remote.js)

    A shallow embedding of [joint(options)] and of the hooks it returns,
    followed by the properties of the hooks.

    - JavaScript values are JSON-like trees ([value]).  The record handed to
      an enhanced transform is mutated in place by the source, so records in
      flight live in a store and are passed by location.  The option arrays
      [parentFields] and [relatedListFields] are pushed to during
      construction and therefore live in a store of arrays as well.
    - Every call made on a collection, and every [console.warn], is appended
      to a log.  The answers of the asynchronous collection calls come from
      the collection: an answer is an [outcome], resolved or rejected.
    - A promise is represented by its eventual outcome; the effects its
      callbacks perform are applied to the world in program order. *)

From Stdlib Require Import ZArith Ascii String.
From stdpp Require Import base option strings list gmap.

Open Scope string_scope.
Open Scope list_scope.

Set Warnings "-register-all".

(** ** JavaScript values *)

(** Numbers are integers here; [NaN] and fractions do not occur in the
    claims. *)
Inductive value : Type :=
| VUndefined
| VNull
| VBool (b : bool)
| VNum (n : Z)
| VStr (s : string)
| VObj (fs : list (string * value))
| VArr (xs : list value).

(** A record: field names to values, in insertion order, names unique. *)
Abbreviation fields := (list (string * value)).

(** [if (v)] *)
Definition truthy (v : value) : bool :=
  match v with
  | VUndefined | VNull => false
  | VBool b => b
  | VNum n => negb (n =? 0)%Z
  | VStr s => negb (String.eqb s "")
  | VObj _ | VArr _ => true
  end.

(** [typeof v === 'string'] *)
Definition as_string (v : value) : option string :=
  match v with VStr s => Some s | _ => None end.

(** [o[k]] on a record; a missing property reads as [undefined]. *)
Fixpoint prop (o : fields) (k : string) : value :=
  match o with
  | [] => VUndefined
  | (k', v) :: o' => if String.eqb k k' then v else prop o' k
  end.

(** [k in o] for own properties. *)
Fixpoint has_prop (o : fields) (k : string) : bool :=
  match o with
  | [] => false
  | (k', _) :: o' => String.eqb k k' || has_prop o' k
  end.

(** [o[k] = v] on a record: overwrite in place or add at the end. *)
Fixpoint set_prop (o : fields) (k : string) (v : value) : fields :=
  match o with
  | [] => [(k, v)]
  | (k', v') :: o' =>
      if String.eqb k k' then (k', v) :: o' else (k', v') :: set_prop o' k v
  end.

(** [x[k]] where [x] is any truthy value: only objects carry the fields the
    source reads; the index and length properties of strings and arrays are
    not field names of a record. *)
Definition get_field (x : value) (k : string) : value :=
  match x with
  | VObj o => prop o k
  | _ => VUndefined
  end.

(** ** The object-path package

    [objectPath.get] and [objectPath.set] come from a third-party package.
    They are modelled on nested plain objects, which is what the lookup
    field of a record addresses: the path is split at the dots, every
    segment names an own property.  Indexing into arrays or strings by a
    numeric segment is outside this model. *)

(** [s.split('.')], with [cur] the segment read so far. *)
Fixpoint split_dots (cur s : string) : list string :=
  match s with
  | EmptyString => [cur]
  | String c s' =>
      if Ascii.eqb c "."%char then cur :: split_dots "" s'
      else split_dots (cur +:+ String c "") s'
  end.

Fixpoint get_path (obj : value) (path : list string) : value :=
  match path with
  | [] => obj
  | k :: rest =>
      match obj with
      | VObj o => get_path (prop o k) rest
      | _ => VUndefined
      end
  end.

(** [objectPath.get(obj, path)]: the empty path yields [obj] itself; a
    missing segment, or a segment read on something that is not an object,
    yields [undefined]. *)
Definition objectPath_get (obj : value) (path : string) : value :=
  if String.eqb path "" then obj else get_path obj (split_dots "" path).

(** Assignment along a path.  A missing intermediate property is created as
    an empty object.  Writing below an intermediate value that is neither
    missing nor an object makes the package throw: [None]. *)
Fixpoint set_path (o : fields) (path : list string) (v : value) : option fields :=
  match path with
  | [] => Some o
  | [k] => Some (set_prop o k v)
  | k :: rest =>
      match prop o k with
      | VUndefined => o' ← set_path [] rest v; Some (set_prop o k (VObj o'))
      | VObj sub => o' ← set_path sub rest v; Some (set_prop o k (VObj o'))
      | _ => None
      end
  end.

(** [objectPath.set(obj, path, v)] on a record: the record after the call,
    or [None] when the call throws.  The empty path leaves the record as it
    is. *)
Definition objectPath_set (o : fields) (path : string) (v : value) : option fields :=
  if String.eqb path "" then Some o else set_path o (split_dots "" path) v.

(** Two paths part ways: at some depth they name different fields. *)
Fixpoint diverges (p q : list string) : bool :=
  match p, q with
  | a :: p', b :: q' => if String.eqb a b then diverges p' q' else true
  | _, _ => false
  end.

(** ** Collections, outcomes and the world *)

Inductive error : Type :=
| InvalidOption (k : string) (v : value)   (* 'Invalid option k in joint config: v' *)
| CheckOptionsError (msg : string)          (* thrown by checkOptions *)
| TypeError                                 (* thrown by the runtime or by object-path *)
| UnableToLocateParent (parentKey : value)  (* 'Unable to locate parent id ...' *)
| NoExternalId (parentKey : value)          (* 'Parent ... does not have an external id yet' *)
| External (reason : value).                (* rejection reason of a collection call *)

(** How a promise settles. *)
Inductive outcome (A : Type) : Type :=
| Resolved (a : A)
| Rejected (e : error).
Arguments Resolved {A} a.
Arguments Rejected {A} e.

Module Collection.
(** Modelled from the spec: the capability surface of a Collection
    collaborator (section 6); the collection classes themselves are not
    part of src/.  The two getters answer a field name; each asynchronous
    method answers the outcome of the promise it returns.  [update] takes
    its two arguments in the order the source passes them (lines 59 and
    138): first the fields to write, then the criteria that name the
    records they are written to. *)
Record t : Type := {
  getKeyField : string;
  getLocalKeyField : string;
  get : value → outcome value;
  find : value → outcome (list value);
  update : value → value → outcome value;
  addOrUpdateChildInCollection : value → string → value → string → outcome value;
  removeChildFromCollection : value → string → value → outcome value;
}.
End Collection.

Inductive side : Type := Parent | Child.

(** What the joint does to the outside: one entry per call, with the
    arguments in the order the source passes them. *)
Inductive event : Type :=
| GetKeyField (c : side)
| GetLocalKeyField (c : side)
| Get (c : side) (queryByKey : value)
| Find (c : side) (queryByField : value)
| Update (c : side) (fieldsToSet matchCriteria : value)
| AddOrUpdateChildInCollection
    (c : side) (matchCriteria : value) (listFieldName : string)
    (entry : value) (entryKeyField : string)
| RemoveChildFromCollection
    (c : side) (matchCriteria : value) (listFieldName : string)
    (entryKeyCriteria : value)
| ConsoleWarn (parentEntity : string) (lookupId : value).

Abbreviation loc := positive.

Record world : Type := {
  heap : gmap loc fields;          (* records passed by reference *)
  arrays : gmap loc (list string); (* arrays of field names *)
  log : list event;                (* calls issued so far, oldest first *)
}.

Definition record_of (h : gmap loc fields) (r : loc) : fields := default [] (h !! r).
Definition array_of (a : gmap loc (list string)) (l : loc) : list string := default [] (a !! l).

Definition emit (e : event) (w : world) : world :=
  {| heap := heap w; arrays := arrays w; log := log w ++ [e] |}.

Definition with_heap (h : gmap loc fields) (w : world) : world :=
  {| heap := h; arrays := arrays w; log := log w |}.

Definition with_arrays (a : gmap loc (list string)) (w : world) : world :=
  {| heap := heap w; arrays := a; log := log w |}.

(** [xs.push(x)] on the array at [l]. *)
Definition push (l : loc) (x : string) (w : world) : world :=
  with_arrays (<[l := array_of (arrays w) l ++ [x]]> (arrays w)) w.

(** A new array literal. *)
Definition new_array (xs : list string) (w : world) : loc * world :=
  let l := fresh (dom (arrays w)) in (l, with_arrays (<[l := xs]> (arrays w)) w).

(** ** What functions return *)

(** A hook returns nothing, returns a promise, or throws. *)
Inductive hook_result : Type :=
| ReturnsUndefined
| ReturnsPromise (o : outcome value)
| Throws (e : error).

(** A transform returns a record, returns a promise of a record, or throws. *)
Inductive transform_result : Type :=
| TReturns (r : loc)
| TPromise (o : outcome loc)
| TThrows (e : error).

Abbreviation hook := (fields → world → world * hook_result).

(** A transform supplied by the caller (cleanse, prepare): it may rewrite
    the records, it does not speak to the collections of the joint. *)
Abbreviation cleanse_fn := (loc → gmap loc fields → gmap loc fields * transform_result).
Abbreviation prepare_fn := (loc → value → gmap loc fields → gmap loc fields * transform_result).

(** [Promise.resolve(x).then(cb)], where [x] is what the wrapped transform
    gave: a throw of the wrapped transform happens before any promise
    exists; a rejection skips [cb]; a throw inside [cb] is an outcome of
    [cb]. *)
Definition Promise_resolve_then
    (x : transform_result) (w : world)
    (cb : loc → world → world * outcome loc) : world * transform_result :=
  match x with
  | TThrows e => (w, TThrows e)
  | TPromise (Rejected e) => (w, TPromise (Rejected e))
  | TReturns r | TPromise (Resolved r) => let '(w', o) := cb r w in (w', TPromise o)
  end.

(** [cleanse ? cleanse(record) : record] *)
Definition call_cleanse (cleanse : option cleanse_fn) (record : loc) (h : gmap loc fields)
    : gmap loc fields * transform_result :=
  match cleanse with
  | Some f => f record h
  | None => (h, TReturns record)
  end.

(** [prepare ? prepare(record, action) : record] *)
Definition call_prepare (prepare : option prepare_fn) (record : loc) (action : value)
    (h : gmap loc fields) : gmap loc fields * transform_result :=
  match prepare with
  | Some f => f record action h
  | None => (h, TReturns record)
  end.

(** The record a transform hands on, if it hands one on. *)
Definition handed_on (x : transform_result) : option loc :=
  match x with
  | TReturns r | TPromise (Resolved r) => Some r
  | _ => None
  end.

(** ** Options and the joint object *)

(** What the options object holds under [parentFields].  The three cases
    differ at line 46: a property that is left out leaves the default of
    line 48 in place, a property that holds [undefined] or [null] is copied
    over it by [Object.assign]. *)
Inductive parentFields_option : Type :=
| LeftOut            (* no such property *)
| Nullish            (* the property holds undefined or null *)
| Given (l : loc).   (* the property holds an array *)

Module Options.
(** The three names checked by [typeof] are arbitrary values; an option
    that may be left out is an [option]; the two arrays are references.
    For [relatedListFields] a property left out and a property holding
    [undefined] read the same (line 45). *)
Record t : Type := {
  childEntity : value;
  parentEntity : value;
  lookupField : value;
  parentFieldName : string;
  parentFields : parentFields_option;
  relatedListName : option string;
  relatedListFields : option loc;
  childCollection : Collection.t;
  parentCollection : Collection.t;
}.
End Options.

(** The constants the hooks close over (lines 36-51). *)
Record Scope : Type := {
  childEntity : string;
  lookupField : string;
  childCollection : Collection.t;
  parentCollection : Collection.t;
  parentEntity : string;
  parentFieldName : string;
  parentFields : loc;
  parentKeyField : string;
}.

Module Joint.
(** The object [j]. *)
Record t : Type := {
  childEntity : string;
  parentEntity : string;
  onParentInserted : hook;
  enhanceCleanse : option cleanse_fn → loc → world → world * transform_result;
  enhancePrepare : option prepare_fn → loc → value → world → world * transform_result;
  onParentUpdated : option hook;
  onChildUpdated : option hook;
  onChildInserted : option hook;
  onChildRemoved : option hook;
}.
End Joint.

(** ** The helpers outside src/ *)

(** Modelled from the spec: [extractNamedFields] is lib/extractNamedFields,
    which is not part of src/.  "Given a record and a set of field names,
    returns a mapping containing only those fields": the named fields the
    record has, each once. *)
Definition extractNamedFields_spec (record : value) (fieldNames : list string) : value :=
  match record with
  | VObj o =>
      VObj (fold_left (λ acc k, if has_prop o k then set_prop acc k (prop o k) else acc)
                      fieldNames [])
  | _ => VObj []
  end.

(** Modelled from the spec: [checkOptions] is lib/checkOptions, which is
    not part of src/.  It "verifies option combinations (e.g.,
    relatedListFields required when relatedListName is given) and fails
    fast with a descriptive error". *)
Definition checkOptions_spec (options : Options.t) (a : gmap loc (list string)) : option string :=
  match Options.relatedListName options, Options.relatedListFields options with
  | Some _, None => Some "relatedListFields is required with relatedListName"
  | _, _ => None
  end.


(** ** The hooks *)

Section Remote.

(** The two helpers required at the top of the file live outside src/:
    [extractNamedFields(record, fieldNames)] and [checkOptions(options)],
    which answers the message of the error it throws, if any. *)
Variable extractNamedFields : value → list string → value.
Variable checkOptions : Options.t → gmap loc (list string) → option string.

(** Lines 58-61.  The promise of [childCollection.update] is dropped: the
    function has no [return]. *)
Definition onParentInserted (s : Scope) : hook := λ parent w,
  let snapshot := extractNamedFields (VObj parent) (array_of (arrays w) (parentFields s)) in
  let w := emit (Update Child
                   (VObj [(parentFieldName s, snapshot)])
                   (VObj [(lookupField s, prop parent (parentKeyField s))])) w in
  (w, ReturnsUndefined).

(** Lines 63-78. *)
Definition enhanceCleanse (s : Scope) (cleanse : option cleanse_fn)
    (record : loc) (w : world) : world * transform_result :=
  let '(h, x) := call_cleanse cleanse record (heap w) in
  Promise_resolve_then x (with_heap h w) (λ cleaned w,
    let lookupId := objectPath_get (VObj (record_of (heap w) cleaned)) (lookupField s) in
    if negb (truthy lookupId) then (w, Resolved cleaned)
    else
      let query := VObj [(parentKeyField s, lookupId)] in
      let w := emit (Get Parent query) w in
      match Collection.get (parentCollection s) query with
      | Rejected e => (w, Rejected e)
      | Resolved parent =>
          if truthy parent then
            let snapshot := extractNamedFields parent (array_of (arrays w) (parentFields s)) in
            let o := set_prop (record_of (heap w) cleaned) (parentFieldName s) snapshot in
            (with_heap (<[cleaned := o]> (heap w)) w, Resolved cleaned)
          else
            (emit (ConsoleWarn (parentEntity s) lookupId) w, Resolved cleaned)
      end).

(** [objectPath.set(prepared, lookupField, v); return prepared] inside a
    [then] callback. *)
Definition set_lookup (s : Scope) (prepared : loc) (v : value) (w : world)
    : world * outcome loc :=
  match objectPath_set (record_of (heap w) prepared) (lookupField s) v with
  | Some o => (with_heap (<[prepared := o]> (heap w)) w, Resolved prepared)
  | None => (w, Rejected TypeError)
  end.

(** Lines 80-104. *)
Definition enhancePrepare (s : Scope) (prepare : option prepare_fn)
    (record : loc) (action : value) (w : world) : world * transform_result :=
  let '(h, x) := call_prepare prepare record action (heap w) in
  Promise_resolve_then x (with_heap h w) (λ prepared w,
    let embedded := prop (record_of (heap w) prepared) (parentFieldName s) in
    if negb (truthy embedded) then (w, Resolved prepared)
    else if truthy (get_field embedded (parentKeyField s)) then
      set_lookup s prepared (get_field embedded (parentKeyField s)) w
    else
      let w := emit (GetLocalKeyField Parent) w in
      let parentKey := get_field embedded (Collection.getLocalKeyField (parentCollection s)) in
      let w := emit (Get Parent parentKey) w in
      match Collection.get (parentCollection s) parentKey with
      | Rejected e => (w, Rejected e)
      | Resolved parent =>
          if negb (truthy parent) then (w, Rejected (UnableToLocateParent parentKey))
          else if negb (truthy (get_field parent (parentKeyField s))) then
            (w, Rejected (NoExternalId parentKey))
          else set_lookup s prepared (get_field parent (parentKeyField s)) w
      end).

(** Lines 113-122, shared by [onChildUpdated] and [onChildInserted]. *)
Definition onChildInserted (s : Scope) (relatedListName : string)
    (relatedListFields : loc) (childKeyField : string) : hook := λ child w,
  let fk := objectPath_get (VObj child) (lookupField s) in
  if truthy fk then
    let criteria := VObj [(parentKeyField s, fk)] in
    let entry := extractNamedFields (VObj child) (array_of (arrays w) relatedListFields) in
    (emit (AddOrUpdateChildInCollection Parent criteria relatedListName entry childKeyField) w,
     ReturnsPromise (Collection.addOrUpdateChildInCollection (parentCollection s)
                       criteria relatedListName entry childKeyField))
  else (w, ReturnsUndefined).

(** Lines 123-130. *)
Definition onChildRemoved (s : Scope) (relatedListName : string)
    (childKeyField : string) : hook := λ child w,
  let fk := objectPath_get (VObj child) (lookupField s) in
  if truthy fk then
    let criteria := VObj [(parentKeyField s, fk)] in
    let entryKey := VObj [(childKeyField, prop child childKeyField)] in
    (emit (RemoveChildFromCollection Parent criteria relatedListName entryKey) w,
     ReturnsPromise (Collection.removeChildFromCollection (parentCollection s)
                       criteria relatedListName entryKey))
  else (w, ReturnsUndefined).

(** Lines 131-142: the [onParentInserted] that replaces the first one
    when a related list is kept.  [onParentUpdated] is [j.onParentUpdated]
    as it is when the hook runs; what it returns is dropped.  The test on
    [relatedListName] at line 134 sits inside the block guarded by the
    same test at line 110. *)
Definition onParentInserted_relatedList (s : Scope) (onParentUpdated : option hook)
    (relatedListName : string) (relatedListFields : loc) : hook := λ parent w,
  let '(w, thrown) := match onParentUpdated with
                      | Some f => match f parent w with
                                  | (w, Throws e) => (w, Some e)
                                  | (w, _) => (w, None)
                                  end
                      | None => (w, None)
                      end in
  match thrown with
  | Some e => (w, Throws e)
  | None =>
      let query := VObj [(lookupField s, prop parent (parentKeyField s))] in
      let w := emit (Find Child query) w in
      match Collection.find (childCollection s) query with
      | Rejected e => (w, ReturnsPromise (Rejected e))
      | Resolved recs =>
          if (0 <? length recs)%nat then
            let children :=
              map (λ r, extractNamedFields r (array_of (arrays w) relatedListFields)) recs in
            let a1 := VObj [(relatedListName, VArr children)] in
            let a2 := VObj [(parentKeyField s, prop parent (parentKeyField s))] in
            (emit (Update Parent a1 a2) w,
             ReturnsPromise (Collection.update (parentCollection s) a1 a2))
          else (w, ReturnsPromise (Resolved VUndefined))
      end
  end.

(** [if (relatedListName)]: an empty name counts as none. *)
Definition configured_name (n : option string) : option string :=
  match n with
  | Some n => if String.eqb n "" then None else Some n
  | None => None
  end.

(** Lines 32-145.  The default [parentFields: []] of line 48 is a new
    array; it is only kept when the caller gave none.  When the caller gave
    [undefined] or [null], [parentFields.push] at line 53 throws before its
    argument is evaluated. *)
Definition joint (options : Options.t) (w : world) : world * (error + Joint.t) :=
  match as_string (Options.childEntity options) with
  | None => (w, inl (InvalidOption "childEntity" (Options.childEntity options)))
  | Some childEntity =>
  match as_string (Options.parentEntity options) with
  | None => (w, inl (InvalidOption "parentEntity" (Options.parentEntity options)))
  | Some parentEntity =>
  match as_string (Options.lookupField options) with
  | None => (w, inl (InvalidOption "lookupField" (Options.lookupField options)))
  | Some lookupField =>
  let '(parentFields, w) := match Options.parentFields options with
                            | Given l => (Some l, w)
                            | Nullish => (None, w)
                            | LeftOut => let '(l, w) := new_array [] w in (Some l, w)
                            end in
  match checkOptions options (arrays w) with
  | Some msg => (w, inl (CheckOptionsError msg))
  | None =>
  let parentCollection := Options.parentCollection options in
  let childCollection := Options.childCollection options in
  let w := emit (GetKeyField Parent) w in
  let parentKeyField := Collection.getKeyField parentCollection in
  match parentFields with
  | None => (w, inl TypeError)
  | Some parentFields =>
  let w := emit (GetLocalKeyField Parent) w in
  let w := push parentFields (Collection.getLocalKeyField parentCollection) w in
  let s := {| childEntity := childEntity; lookupField := lookupField;
              childCollection := childCollection; parentCollection := parentCollection;
              parentEntity := parentEntity;
              parentFieldName := Options.parentFieldName options;
              parentFields := parentFields; parentKeyField := parentKeyField |} in
  let onParentUpdated :=
    if (1 <? length (array_of (arrays w) parentFields))%nat
    then Some (onParentInserted s) else None in
  match configured_name (Options.relatedListName options) with
  | None =>
      (w, inr {| Joint.childEntity := childEntity; Joint.parentEntity := parentEntity;
                 Joint.onParentInserted := onParentInserted s;
                 Joint.enhanceCleanse := enhanceCleanse s;
                 Joint.enhancePrepare := enhancePrepare s;
                 Joint.onParentUpdated := onParentUpdated;
                 Joint.onChildUpdated := None; Joint.onChildInserted := None;
                 Joint.onChildRemoved := None |})
  | Some relatedListName =>
      let w := emit (GetLocalKeyField Child) w in
      let childKeyField := Collection.getLocalKeyField childCollection in
      match Options.relatedListFields options with
      | None => (w, inl TypeError)
      | Some relatedListFields =>
          let w := push relatedListFields childKeyField w in
          let onChild := onChildInserted s relatedListName relatedListFields childKeyField in
          (w, inr {| Joint.childEntity := childEntity; Joint.parentEntity := parentEntity;
                     Joint.onParentInserted :=
                       onParentInserted_relatedList s onParentUpdated
                         relatedListName relatedListFields;
                     Joint.enhanceCleanse := enhanceCleanse s;
                     Joint.enhancePrepare := enhancePrepare s;
                     Joint.onParentUpdated := onParentUpdated;
                     Joint.onChildUpdated := Some onChild;
                     Joint.onChildInserted := Some onChild;
                     Joint.onChildRemoved :=
                       Some (onChildRemoved s relatedListName childKeyField) |})
      end
  end end end end end end.

(** The array [parentFields] names once line 46 has run: the caller's, or
    the new one. *)
Definition parentFields_of (options : Options.t) (w : world) : loc :=
  match Options.parentFields options with
  | Given l => l
  | LeftOut | Nullish => fresh (dom (arrays w))
  end.

(** What the caller wrote in [parentFields] ([[]] when left out). *)
Definition configured_parentFields (options : Options.t) (w : world) : list string :=
  match Options.parentFields options with
  | Given l => array_of (arrays w) l
  | LeftOut | Nullish => []
  end.

(** The scope of the hooks of [joint(options)] built in world [w]. *)
Definition closure (options : Options.t) (w : world)
    (childEntity parentEntity lookupField : string) : Scope :=
  {| childEntity := childEntity; lookupField := lookupField;
     childCollection := Options.childCollection options;
     parentCollection := Options.parentCollection options;
     parentEntity := parentEntity;
     parentFieldName := Options.parentFieldName options;
     parentFields := parentFields_of options w;
     parentKeyField := Collection.getKeyField (Options.parentCollection options) |}.

(** The arrays once line 53 has run: the local key of the parent has been
    pushed on [parentFields]. *)
Definition arrays_after_line_53 (options : Options.t) (w : world) : gmap loc (list string) :=
  <[parentFields_of options w :=
      configured_parentFields options w
        ++ [Collection.getLocalKeyField (Options.parentCollection options)]]> (arrays w).

(** [j.onParentUpdated] as lines 105-108 leave it. *)
Definition onParentUpdated_of (options : Options.t) (w : world) (s : Scope) : option hook :=
  if (1 <? length (configured_parentFields options w
                     ++ [Collection.getLocalKeyField (Options.parentCollection options)]))%nat
  then Some (onParentInserted s) else None.

End Remote.

(** ** A running example

  The scenario of the spec: parent [{id: "P1", extId: "EXT-1", name:
  "Acme"}], external key field [extId], local key field [id], lookup
  field [fk], snapshot under [parent]. *)
Module Scenario.

Definition acme : value :=
  VObj [("id", VStr "P1"); ("extId", VStr "EXT-1"); ("name", VStr "Acme")].

Definition task : value :=
  VObj [("id", VStr "C1"); ("fk", VStr "EXT-1"); ("title", VStr "Pipe")].

(** Knows [acme] by external key and by local key; nothing else. *)
Definition parents : Collection.t :=
  {| Collection.getKeyField := "extId";
     Collection.getLocalKeyField := "id";
     Collection.get := λ q,
       match q with
       | VStr "P1" => Resolved acme
       | VObj [("extId", VStr "EXT-1")] => Resolved acme
       | _ => Resolved VNull
       end;
     Collection.find := λ _, Resolved [];
     Collection.update := λ _ _, Resolved VUndefined;
     Collection.addOrUpdateChildInCollection := λ _ _ _ _, Resolved VUndefined;
     Collection.removeChildFromCollection := λ _ _ _, Resolved VUndefined |}.

(** Holds [task]; every [find] answers it. *)
Definition children : Collection.t :=
  {| Collection.getKeyField := "extId";
     Collection.getLocalKeyField := "id";
     Collection.get := λ _, Resolved VNull;
     Collection.find := λ _, Resolved [task];
     Collection.update := λ _ _, Resolved VUndefined;
     Collection.addOrUpdateChildInCollection := λ _ _ _ _, Resolved VUndefined;
     Collection.removeChildFromCollection := λ _ _ _, Resolved VUndefined |}.

(** A child collection whose store is down: every [update] rejects. *)
Definition broken_children : Collection.t :=
  {| Collection.getKeyField := "extId";
     Collection.getLocalKeyField := "id";
     Collection.get := λ _, Resolved VNull;
     Collection.find := λ _, Resolved [];
     Collection.update := λ _ _, Rejected (External (VStr "write failed"));
     Collection.addOrUpdateChildInCollection := λ _ _ _ _, Resolved VUndefined;
     Collection.removeChildFromCollection := λ _ _ _, Resolved VUndefined |}.

(** The caller's arrays: [parentFields] at 1, [relatedListFields] at 2,
    an array holding only the local key at 3, an empty array at 4. *)
Definition caller_arrays : gmap loc (list string) :=
  <[1%positive := ["name"]]> (<[2%positive := ["title"]]>
    (<[3%positive := ["id"]]> (<[4%positive := []]> ∅))).

(** Records in flight: at 1 a child with a foreign key, at 2 a child
    without one, at 3 a child whose snapshot lacks the external key, at 4
    a child whose snapshot carries it, at 5 a child whose snapshot carries
    an empty external key, at 6 a child pointing at an unknown parent. *)
Definition records : gmap loc fields :=
  <[1%positive := [("id", VStr "C1"); ("fk", VStr "EXT-1"); ("title", VStr "Pipe")]]>
  (<[2%positive := [("id", VStr "C2"); ("fk", VNull)]]>
  (<[3%positive := [("id", VStr "C3");
                    ("parent", VObj [("name", VStr "Acme"); ("id", VStr "P1")])]]>
  (<[4%positive := [("id", VStr "C4");
                    ("parent", VObj [("extId", VStr "EXT-9"); ("id", VStr "P9")])]]>
  (<[5%positive := [("id", VStr "C5");
                    ("parent", VObj [("extId", VStr ""); ("id", VStr "P1")])]]>
  (<[6%positive := [("id", VStr "C6"); ("fk", VStr "EXT-404")]]> ∅))))).

Definition start : world :=
  {| heap := records; arrays := caller_arrays; log := [] |}.

(** Denormalize [name]; no related list. *)
Definition plain : Options.t :=
  {| Options.childEntity := VStr "Task"; Options.parentEntity := VStr "Account";
     Options.lookupField := VStr "fk"; Options.parentFieldName := "parent";
     Options.parentFields := Given 1%positive;
     Options.relatedListName := None; Options.relatedListFields := None;
     Options.childCollection := children; Options.parentCollection := parents |}.

(** Denormalize [name] and keep the related list [tasks] of [title]s. *)
Definition with_list : Options.t :=
  {| Options.childEntity := VStr "Task"; Options.parentEntity := VStr "Account";
     Options.lookupField := VStr "fk"; Options.parentFieldName := "parent";
     Options.parentFields := Given 1%positive;
     Options.relatedListName := Some "tasks"; Options.relatedListFields := Some 2%positive;
     Options.childCollection := children; Options.parentCollection := parents |}.

(** As [plain], the child collection being down. *)
Definition plain_broken : Options.t :=
  {| Options.childEntity := VStr "Task"; Options.parentEntity := VStr "Account";
     Options.lookupField := VStr "fk"; Options.parentFieldName := "parent";
     Options.parentFields := Given 1%positive;
     Options.relatedListName := None; Options.relatedListFields := None;
     Options.childCollection := broken_children; Options.parentCollection := parents |}.

(** As [with_list], the child collection being down. *)
Definition with_list_broken : Options.t :=
  {| Options.childEntity := VStr "Task"; Options.parentEntity := VStr "Account";
     Options.lookupField := VStr "fk"; Options.parentFieldName := "parent";
     Options.parentFields := Given 1%positive;
     Options.relatedListName := Some "tasks"; Options.relatedListFields := Some 2%positive;
     Options.childCollection := broken_children; Options.parentCollection := parents |}.

(** The caller lists the local key itself and nothing else. *)
Definition key_only : Options.t :=
  {| Options.childEntity := VStr "Task"; Options.parentEntity := VStr "Account";
     Options.lookupField := VStr "fk"; Options.parentFieldName := "parent";
     Options.parentFields := Given 3%positive;
     Options.relatedListName := None; Options.relatedListFields := None;
     Options.childCollection := children; Options.parentCollection := parents |}.

(** The caller passes an empty array of its own. *)
Definition no_fields : Options.t :=
  {| Options.childEntity := VStr "Task"; Options.parentEntity := VStr "Account";
     Options.lookupField := VStr "fk"; Options.parentFieldName := "parent";
     Options.parentFields := Given 4%positive;
     Options.relatedListName := None; Options.relatedListFields := None;
     Options.childCollection := children; Options.parentCollection := parents |}.

End Scenario.

(** ** The joints of the running example *)

Module Built.
Import Scenario.

(** The scope shared by the joints built from [plain] and [with_list]. *)
Definition scope : Scope := closure plain start "Task" "Account" "fk".

(** [joint(plain)]: the world it leaves and the object it returns. *)
Definition plain_world : world :=
  {| heap := records;
     arrays := <[1%positive := ["name"; "id"]]> caller_arrays;
     log := [GetKeyField Parent; GetLocalKeyField Parent] |}.

Definition plain_joint : Joint.t :=
  {| Joint.childEntity := "Task"; Joint.parentEntity := "Account";
     Joint.onParentInserted := onParentInserted extractNamedFields_spec scope;
     Joint.enhanceCleanse := enhanceCleanse extractNamedFields_spec scope;
     Joint.enhancePrepare := enhancePrepare scope;
     Joint.onParentUpdated := Some (onParentInserted extractNamedFields_spec scope);
     Joint.onChildUpdated := None; Joint.onChildInserted := None;
     Joint.onChildRemoved := None |}.

(** [joint(with_list)]. *)
Definition with_list_world : world :=
  {| heap := records;
     arrays := <[2%positive := ["title"; "id"]]>
                 (<[1%positive := ["name"; "id"]]> caller_arrays);
     log := [GetKeyField Parent; GetLocalKeyField Parent; GetLocalKeyField Child] |}.

Definition with_list_joint : Joint.t :=
  {| Joint.childEntity := "Task"; Joint.parentEntity := "Account";
     Joint.onParentInserted :=
       onParentInserted_relatedList extractNamedFields_spec scope
         (Some (onParentInserted extractNamedFields_spec scope)) "tasks" 2%positive;
     Joint.enhanceCleanse := enhanceCleanse extractNamedFields_spec scope;
     Joint.enhancePrepare := enhancePrepare scope;
     Joint.onParentUpdated := Some (onParentInserted extractNamedFields_spec scope);
     Joint.onChildUpdated :=
       Some (onChildInserted extractNamedFields_spec scope "tasks" 2%positive "id");
     Joint.onChildInserted :=
       Some (onChildInserted extractNamedFields_spec scope "tasks" 2%positive "id");
     Joint.onChildRemoved := Some (onChildRemoved scope "tasks" "id") |}.

(** The parent and the child of the scenario as the hooks receive them. *)
Definition acme_record : fields :=
  [("id", VStr "P1"); ("extId", VStr "EXT-1"); ("name", VStr "Acme")].

Definition orphan_record : fields := [("id", VStr "C2"); ("fk", VNull)].

End Built.

(** ** Kinds of calls, and more of the running example *)

(** The two getters of a collection. *)
Definition asks_key_field (e : event) : bool :=
  match e with
  | GetKeyField _ | GetLocalKeyField _ => true
  | _ => false
  end.

(** An update sent to the child collection. *)
Definition updates_child (e : event) : bool :=
  match e with
  | Update Child _ _ => true
  | _ => false
  end.

(** The arrays when [checkOptions] runs (line 50): the default array of
    line 48 is there when the caller gave no [parentFields]. *)
Definition arrays_at_line_50 (options : Options.t) (w : world) : gmap loc (list string) :=
  match Options.parentFields options with
  | Given _ | Nullish => arrays w
  | LeftOut => <[fresh (dom (arrays w)) := []]> (arrays w)
  end.

Module Edge.
Import Scenario.


(** [lookupField] is a number. *)
Definition bad_lookupField : Options.t :=
  {| Options.childEntity := VStr "Task"; Options.parentEntity := VStr "Account";
     Options.lookupField := VNum 7; Options.parentFieldName := "parent";
     Options.parentFields := Given 1%positive;
     Options.relatedListName := None; Options.relatedListFields := None;
     Options.childCollection := children; Options.parentCollection := parents |}.


(** The caller leaves [parentFields] out. *)
Definition defaults : Options.t :=
  {| Options.childEntity := VStr "Task"; Options.parentEntity := VStr "Account";
     Options.lookupField := VStr "fk"; Options.parentFieldName := "parent";
     Options.parentFields := LeftOut;
     Options.relatedListName := None; Options.relatedListFields := None;
     Options.childCollection := children; Options.parentCollection := parents |}.
(** A related list and an empty [parentFields] of the caller's. *)
Definition list_only : Options.t :=
  {| Options.childEntity := VStr "Task"; Options.parentEntity := VStr "Account";
     Options.lookupField := VStr "fk"; Options.parentFieldName := "parent";
     Options.parentFields := Given 4%positive;
     Options.relatedListName := Some "tasks"; Options.relatedListFields := Some 2%positive;
     Options.childCollection := children; Options.parentCollection := parents |}.
(** [parentFields] is there and holds [undefined]. *)
Definition undefined_fields : Options.t :=
  {| Options.childEntity := VStr "Task"; Options.parentEntity := VStr "Account";
     Options.lookupField := VStr "fk"; Options.parentFieldName := "parent";
     Options.parentFields := Nullish;
     Options.relatedListName := None; Options.relatedListFields := None;
     Options.childCollection := children; Options.parentCollection := parents |}.

(** A child collection whose local key field is [cid], and a parent that
    happens to have a field of that name. *)
Definition cid_children : Collection.t :=
  {| Collection.getKeyField := "extId";
     Collection.getLocalKeyField := "cid";
     Collection.get := λ _, Resolved VNull;
     Collection.find := λ _, Resolved [];
     Collection.update := λ _ _, Resolved VUndefined;
     Collection.addOrUpdateChildInCollection := λ _ _ _ _, Resolved VUndefined;
     Collection.removeChildFromCollection := λ _ _ _, Resolved VUndefined |}.

Definition acme_with_cid : value :=
  VObj [("id", VStr "P1"); ("extId", VStr "EXT-1"); ("name", VStr "Acme");
        ("cid", VStr "C0")].

Definition parents_with_cid : Collection.t :=
  {| Collection.getKeyField := "extId";
     Collection.getLocalKeyField := "id";
     Collection.get := λ q,
       match q with
       | VObj [("extId", VStr "EXT-1")] => Resolved acme_with_cid
       | _ => Resolved VNull
       end;
     Collection.find := λ _, Resolved [];
     Collection.update := λ _ _, Resolved VUndefined;
     Collection.addOrUpdateChildInCollection := λ _ _ _ _, Resolved VUndefined;
     Collection.removeChildFromCollection := λ _ _ _, Resolved VUndefined |}.

(** The caller passes one array, [["name"]], for both [parentFields] and
    [relatedListFields]. *)
Definition shared_array : Options.t :=
  {| Options.childEntity := VStr "Task"; Options.parentEntity := VStr "Account";
     Options.lookupField := VStr "fk"; Options.parentFieldName := "parent";
     Options.parentFields := Given 1%positive;
     Options.relatedListName := Some "tasks"; Options.relatedListFields := Some 1%positive;
     Options.childCollection := cid_children; Options.parentCollection := parents_with_cid |}.

(** A dotted lookup field: the foreign key of a child sits at [Id] of its
    [Account]. *)
Definition dotted_scope : Scope :=
  {| childEntity := "Task"; lookupField := "Account.Id";
     childCollection := children; parentCollection := parents;
     parentEntity := "Account"; parentFieldName := "parent";
     parentFields := 1%positive; parentKeyField := "extId" |}.

(** Two children whose [Account] is [null]: the snapshot of the one at 1
    has the local key of its parent only, the snapshot of the one at 2
    carries the external key. *)
Definition dotted_records : gmap loc fields :=
  <[1%positive := [("id", VStr "C7"); ("Account", VNull);
                   ("parent", VObj [("name", VStr "Acme"); ("id", VStr "P1")])]]>
  (<[2%positive := [("id", VStr "C8"); ("Account", VNull);
                    ("parent", VObj [("extId", VStr "EXT-1"); ("id", VStr "P1")])]]> ∅).

Definition dotted_start : world :=
  {| heap := dotted_records; arrays := caller_arrays; log := [] |}.

(** A parent collection whose store is down: every [get] rejects. *)
Definition down_parents : Collection.t :=
  {| Collection.getKeyField := "extId";
     Collection.getLocalKeyField := "id";
     Collection.get := λ _, Rejected (External (VStr "read failed"));
     Collection.find := λ _, Resolved [];
     Collection.update := λ _ _, Resolved VUndefined;
     Collection.addOrUpdateChildInCollection := λ _ _ _ _, Resolved VUndefined;
     Collection.removeChildFromCollection := λ _ _ _, Resolved VUndefined |}.

(** The scope of the example with the parent collection down. *)
Definition down_scope : Scope :=
  {| childEntity := "Task"; lookupField := "fk";
     childCollection := children; parentCollection := down_parents;
     parentEntity := "Account"; parentFieldName := "parent";
     parentFields := 1%positive; parentKeyField := "extId" |}.

(** A cleanse that rejects, a cleanse that throws, and their prepare
    counterparts. *)
Definition rejecting_cleanse : cleanse_fn :=
  λ _ h, (h, TPromise (Rejected (External (VStr "bad record")))).
Definition throwing_cleanse : cleanse_fn :=
  λ _ h, (h, TThrows (External (VStr "bad record"))).
Definition rejecting_prepare : prepare_fn :=
  λ _ _ h, (h, TPromise (Rejected (External (VStr "bad record")))).
Definition throwing_prepare : prepare_fn :=
  λ _ _ h, (h, TThrows (External (VStr "bad record"))).

(** The child of the scenario as the child hooks receive it. *)
Definition task_record : fields :=
  [("id", VStr "C1"); ("fk", VStr "EXT-1"); ("title", VStr "Pipe")].

End Edge.

(** ** Properties *)

Section Properties.

Variable extractNamedFields : value → list string → value.
Variable checkOptions : Options.t → gmap loc (list string) → option string.

Local Abbreviation onParentInserted := (onParentInserted extractNamedFields).
Local Abbreviation enhanceCleanse := (enhanceCleanse extractNamedFields).
Local Abbreviation onChildInserted := (onChildInserted extractNamedFields).
Local Abbreviation onParentInserted_relatedList :=
  (onParentInserted_relatedList extractNamedFields).
Local Abbreviation joint := (joint extractNamedFields checkOptions).
Local Abbreviation onParentUpdated_of := (onParentUpdated_of extractNamedFields).

(** ** Records and paths *)

Lemma prop_set_prop_eq (o : fields) k v : prop (set_prop o k v) k = v.
Proof.
  induction o as [|[k' v'] o IH]; simpl.
  - by rewrite String.eqb_refl.
  - destruct (String.eqb k k') eqn:E; simpl; by rewrite E.
Qed.

Lemma prop_set_prop_ne (o : fields) k k' v :
  k ≠ k' → prop (set_prop o k v) k' = prop o k'.
Proof.
  intros Hne. induction o as [|[k0 v0] o IH]; simpl.
  - destruct (String.eqb k' k) eqn:E; [|done].
    apply String.eqb_eq in E. congruence.
  - destruct (String.eqb k k0) eqn:E; simpl; [|by rewrite IH].
    apply String.eqb_eq in E as <-.
    destruct (String.eqb k' k) eqn:E'; [|done].
    apply String.eqb_eq in E'. congruence.
Qed.

Lemma get_path_undefined q : get_path VUndefined q = VUndefined.
Proof. by destruct q. Qed.

Lemma get_path_empty_object q : q ≠ [] → get_path (VObj []) q = VUndefined.
Proof. destruct q; [done|]. intros _. simpl. apply get_path_undefined. Qed.

Lemma diverges_nonempty p q : diverges p q = true → q ≠ [].
Proof. by destruct p, q. Qed.

(** A write along [p] is not seen by a read along a path that parts ways
    with [p]. *)
Lemma set_path_frame p : ∀ (o o' : fields) v q,
  set_path o p v = Some o' → diverges p q = true →
  get_path (VObj o') q = get_path (VObj o) q.
Proof.
  induction p as [|k rest IH]; intros o o' v q Hset Hdiv; [done|].
  destruct q as [|b q']; [by destruct rest|].
  simpl in Hdiv. destruct (String.eqb k b) eqn:Ekb.
  - apply String.eqb_eq in Ekb as <-.
    destruct rest as [|k2 rest']; [by destruct q'|].
    change (set_path o (k :: k2 :: rest') v)
      with (match prop o k with
            | VUndefined => o' ← set_path [] (k2 :: rest') v; Some (set_prop o k (VObj o'))
            | VObj sub => o' ← set_path sub (k2 :: rest') v; Some (set_prop o k (VObj o'))
            | _ => None
            end) in Hset.
    destruct (prop o k) as [| | | | |sub|] eqn:Ek; try done.
    + destruct (set_path [] (k2 :: rest') v) as [sub'|] eqn:Es; [|done].
      simpl in Hset. injection Hset as <-.
      simpl. rewrite prop_set_prop_eq, Ek.
      rewrite (IH _ _ _ _ Es Hdiv), get_path_undefined.
      apply get_path_empty_object. by eapply diverges_nonempty.
    + destruct (set_path sub (k2 :: rest') v) as [sub'|] eqn:Es; [|done].
      simpl in Hset. injection Hset as <-.
      simpl. rewrite prop_set_prop_eq, Ek. by eapply IH.
  - assert (k ≠ b) as Hne by (intros ->; by rewrite String.eqb_refl in Ekb).
    assert (∃ x, o' = set_prop o k x) as [x ->].
    { destruct rest as [|k2 rest'].
      - injection Hset as <-. eauto.
      - change (set_path o (k :: k2 :: rest') v)
          with (match prop o k with
                | VUndefined => o' ← set_path [] (k2 :: rest') v; Some (set_prop o k (VObj o'))
                | VObj sub => o' ← set_path sub (k2 :: rest') v; Some (set_prop o k (VObj o'))
                | _ => None
                end) in Hset.
        destruct (prop o k); try done;
          match type of Hset with
          | context [set_path ?a ?b ?c] => destruct (set_path a b c); [|done]
          end; simpl in Hset; injection Hset as <-; eauto. }
    simpl. by rewrite prop_set_prop_ne.
Qed.

(** A read along the path just written yields the value written. *)
Lemma set_path_get_path p : ∀ (o o' : fields) v,
  p ≠ [] → set_path o p v = Some o' → get_path (VObj o') p = v.
Proof.
  induction p as [|k rest IH]; intros o o' v Hne Hset; [done|].
  destruct rest as [|k2 rest'].
  - injection Hset as <-. simpl. apply prop_set_prop_eq.
  - change (set_path o (k :: k2 :: rest') v)
      with (match prop o k with
            | VUndefined => o' ← set_path [] (k2 :: rest') v; Some (set_prop o k (VObj o'))
            | VObj sub => o' ← set_path sub (k2 :: rest') v; Some (set_prop o k (VObj o'))
            | _ => None
            end) in Hset.
    destruct (prop o k); try done;
      match type of Hset with
      | context [set_path ?a ?b ?c] => destruct (set_path a b c) eqn:Es; [|done]
      end; simpl in Hset; injection Hset as <-;
      change (get_path (VObj ?a) (k :: ?r)) with (get_path (prop a k) r);
      rewrite prop_set_prop_eq; by eapply IH.
Qed.

Lemma split_dots_nonempty cur p : split_dots cur p ≠ [].
Proof. revert cur. induction p as [|c p IH]; intros cur; simpl; [done|]. by destruct (Ascii.eqb c "."). Qed.

(** [objectPath.set] then [objectPath.get] on a lookup field that is not
    the empty string. *)
Lemma objectPath_get_set (o o' : fields) p v :
  p ≠ "" → objectPath_set o p v = Some o' → objectPath_get (VObj o') p = v.
Proof.
  unfold objectPath_set, objectPath_get. intros Hp.
  destruct (String.eqb p "") eqn:E; [by apply String.eqb_eq in E|].
  apply set_path_get_path, split_dots_nonempty.
Qed.

(** [objectPath.set] changes nothing that is read along a path parting
    ways with the path written. *)
Lemma objectPath_set_frame (o o' : fields) p v q :
  objectPath_set o p v = Some o' → diverges (split_dots "" p) q = true →
  get_path (VObj o') q = get_path (VObj o) q.
Proof.
  unfold objectPath_set. destruct (String.eqb p ""); [by intros [= ->]|].
  apply set_path_frame.
Qed.

(** ** Construction *)

Lemma array_of_insert_eq (a : gmap loc (list string)) l xs :
  array_of (<[l := xs]> a) l = xs.
Proof. unfold array_of. by rewrite lookup_insert_eq. Qed.

Lemma array_of_insert_ne (a : gmap loc (list string)) l l' xs :
  l ≠ l' → array_of (<[l := xs]> a) l' = array_of a l'.
Proof. intros. unfold array_of. by rewrite lookup_insert_ne. Qed.

Lemma as_string_Some v s : as_string v = Some s → v = VStr s.
Proof. destruct v; simpl; congruence. Qed.

(** What a successful construction returns and leaves behind. *)
Lemma joint_inv options w0 w1 j :
  joint options w0 = (w1, inr j) →
  ∃ ce pe lf,
    Options.childEntity options = VStr ce ∧
    Options.parentEntity options = VStr pe ∧
    Options.lookupField options = VStr lf ∧
    let s := closure options w0 ce pe lf in
    let ck := Collection.getLocalKeyField (Options.childCollection options) in
    let A := arrays_after_line_53 options w0 in
    Joint.enhanceCleanse j = enhanceCleanse s ∧
    Joint.enhancePrepare j = enhancePrepare s ∧
    Joint.onParentUpdated j = onParentUpdated_of options w0 s ∧
    heap w1 = heap w0 ∧
    match configured_name (Options.relatedListName options) with
    | None =>
        Joint.onParentInserted j = onParentInserted s ∧
        Joint.onChildInserted j = None ∧
        Joint.onChildUpdated j = None ∧
        Joint.onChildRemoved j = None ∧
        arrays w1 = A ∧
        log w1 = log w0 ++ [GetKeyField Parent; GetLocalKeyField Parent]
    | Some n =>
        ∃ rlf,
          Options.relatedListFields options = Some rlf ∧
          Joint.onParentInserted j =
            onParentInserted_relatedList s (Joint.onParentUpdated j) n rlf ∧
          Joint.onChildInserted j = Some (onChildInserted s n rlf ck) ∧
          Joint.onChildUpdated j = Some (onChildInserted s n rlf ck) ∧
          Joint.onChildRemoved j = Some (onChildRemoved s n ck) ∧
          arrays w1 = <[rlf := array_of A rlf ++ [ck]]> A ∧
          log w1 = log w0 ++ [GetKeyField Parent; GetLocalKeyField Parent;
                              GetLocalKeyField Child]
    end.
Proof.
  intros H. unfold joint in H.
  destruct (as_string (Options.childEntity options)) as [ce|] eqn:Hce; [|done].
  destruct (as_string (Options.parentEntity options)) as [pe|] eqn:Hpe; [|done].
  destruct (as_string (Options.lookupField options)) as [lf|] eqn:Hlf; [|done].
  apply as_string_Some in Hce, Hpe, Hlf.
  exists ce, pe, lf. split_and!; [done..|].
  assert (Options.parentFields options ≠ Nullish) as Hgiven.
  { intros Hn. rewrite Hn in H. by destruct (checkOptions options (arrays w0)). }
  assert (∃ w, match Options.parentFields options with
               | Given l => (Some l, w0)
               | Nullish => (None, w0)
               | LeftOut => let '(l, w) := new_array [] w0 in (Some l, w)
               end = (Some (parentFields_of options w0), w)
               ∧ heap w = heap w0 ∧ log w = log w0
               ∧ <[parentFields_of options w0 :=
                     array_of (arrays w) (parentFields_of options w0)
                       ++ [Collection.getLocalKeyField (Options.parentCollection options)]]>
                   (arrays w) = arrays_after_line_53 options w0) as (w & Hw & Hh & Hl & HA).
  { unfold parentFields_of, arrays_after_line_53, configured_parentFields, parentFields_of.
    destruct (Options.parentFields options) as [| |l]; [|done|by exists w0].
    eexists. split; [reflexivity|]. simpl. split_and!; [done..|].
    by rewrite array_of_insert_eq, insert_insert_eq. }
  rewrite Hw in H.
  destruct (checkOptions options (arrays w)); [done|].
  cbv zeta in H. unfold push in H. simpl in H. rewrite HA in H.
  assert (array_of (arrays_after_line_53 options w0) (parentFields_of options w0)
          = configured_parentFields options w0
              ++ [Collection.getLocalKeyField (Options.parentCollection options)]) as HP
    by apply array_of_insert_eq.
  rewrite HP in H. fold (closure options w0 ce pe lf) in H.
  fold (onParentUpdated_of options w0 (closure options w0 ce pe lf)) in H.
  destruct (configured_name (Options.relatedListName options)) as [n|].
  - destruct (Options.relatedListFields options) as [rlf|]; [|done].
    simplify_eq/=. rewrite Hl. split_and!; try done.
    exists rlf. split_and!; try done. by rewrite <-!app_assoc.
  - simplify_eq/=. rewrite Hl. split_and!; try done. by rewrite <-!app_assoc.
Qed.

(** ** The enhanced transforms *)

(** Runs the wrapped transform of an enhanced transform and enters the
    [then] callback with the record it handed on. *)
Ltac enter_callback Hcall Hx :=
  rewrite Hcall;
  match type of Hx with
  | handed_on ?x = Some _ =>
      destruct x as [?|[?|?]|?]; simpl in Hx; simplify_eq; simpl
  end.

(** C5.  Soft lookup miss: when the foreign key of the cleansed record
    names no parent, the enhanced cleanse resolves to the record the
    wrapped transform handed on, leaves every record as the wrapped
    transform left it (no snapshot is written), and only warns. *)
Theorem C5_cleanse_soft_miss (s : Scope) cleanse record w h x cleaned lookupId parent :
  call_cleanse cleanse record (heap w) = (h, x) →
  handed_on x = Some cleaned →
  lookupId = objectPath_get (VObj (record_of h cleaned)) (lookupField s) →
  truthy lookupId = true →
  Collection.get (parentCollection s) (VObj [(parentKeyField s, lookupId)]) = Resolved parent →
  truthy parent = false →
  enhanceCleanse s cleanse record w =
    ({| heap := h; arrays := arrays w;
        log := log w ++ [Get Parent (VObj [(parentKeyField s, lookupId)]);
                         ConsoleWarn (parentEntity s) lookupId] |},
     TPromise (Resolved cleaned)).
Proof.
  intros Hcall Hx -> Hid Hget Hp. unfold enhanceCleanse.
  enter_callback Hcall Hx; rewrite Hid, Hget, Hp; simpl;
    unfold emit; simpl; by rewrite <-app_assoc.
Qed.

(** C7, amended.  Fast path: when the snapshot under [parentFieldName]
    holds the external key of the parent (a truthy value at the
    external-key field), the enhanced prepare calls neither collection.
    It writes that very value at [lookupField] of the record and resolves
    to the record, except when the write throws (a dotted [lookupField]
    that passes through a value that is neither missing nor an object):
    then the promise rejects and every record is as the wrapped transform
    left it. *)
Theorem C7_prepare_copies_embedded_key
    (s : Scope) prepare record action w h x prepared embedded key :
  call_prepare prepare record action (heap w) = (h, x) →
  handed_on x = Some prepared →
  embedded = prop (record_of h prepared) (parentFieldName s) →
  key = get_field embedded (parentKeyField s) →
  truthy key = true →
  enhancePrepare s prepare record action w =
    match objectPath_set (record_of h prepared) (lookupField s) key with
    | Some o =>
        ({| heap := <[prepared := o]> h; arrays := arrays w; log := log w |},
         TPromise (Resolved prepared))
    | None =>
        ({| heap := h; arrays := arrays w; log := log w |},
         TPromise (Rejected TypeError))
    end.
Proof.
  clear extractNamedFields checkOptions.
  intros Hcall Hx -> -> Hkey. unfold enhancePrepare.
  assert (truthy (prop (record_of h prepared) (parentFieldName s)) = true) as He.
  { destruct (prop (record_of h prepared) (parentFieldName s)); done. }
  enter_callback Hcall Hx; rewrite He, Hkey; simpl;
    unfold set_lookup; simpl; by destruct (objectPath_set _ _ _).
Qed.

(** C4, amended.  Hard lookup: when the snapshot under [parentFieldName]
    is there and has no external key, the enhanced prepare asks the parent
    collection for the parent by the local key found in the snapshot.  The
    promise rejects exactly when the lookup rejects, no parent comes back,
    the parent has no external key, or the write at [lookupField] throws (a
    dotted [lookupField] that passes through a value that is neither
    missing nor an object); then every record is as the wrapped transform
    left it.  Otherwise the promise resolves to the record and the
    external key of the parent has been written at [lookupField]. *)
Theorem C4_prepare_hard_lookup
    (s : Scope) prepare record action w h x prepared embedded parentKey :
  call_prepare prepare record action (heap w) = (h, x) →
  handed_on x = Some prepared →
  embedded = prop (record_of h prepared) (parentFieldName s) →
  truthy embedded = true →
  truthy (get_field embedded (parentKeyField s)) = false →
  parentKey = get_field embedded (Collection.getLocalKeyField (parentCollection s)) →
  ∃ w' r,
    enhancePrepare s prepare record action w = (w', TPromise r) ∧
    arrays w' = arrays w ∧
    log w' = log w ++ [GetLocalKeyField Parent; Get Parent parentKey] ∧
    ((∃ e, r = Rejected e) ↔
       match Collection.get (parentCollection s) parentKey with
       | Rejected _ => True
       | Resolved parent =>
           truthy parent = false
           ∨ truthy (get_field parent (parentKeyField s)) = false
           ∨ objectPath_set (record_of h prepared) (lookupField s)
               (get_field parent (parentKeyField s)) = None
       end) ∧
    ((∃ e, r = Rejected e) → heap w' = h) ∧
    (∀ r', r = Resolved r' →
       r' = prepared ∧
       ∃ parent o,
         Collection.get (parentCollection s) parentKey = Resolved parent ∧
         objectPath_set (record_of h prepared) (lookupField s)
           (get_field parent (parentKeyField s)) = Some o ∧
         heap w' = <[prepared := o]> h).
Proof.
  clear extractNamedFields checkOptions.
  intros Hcall Hx -> He Hk ->. unfold enhancePrepare.
  enter_callback Hcall Hx; rewrite He, Hk; simpl;
    (destruct (Collection.get (parentCollection s) _) as [parent|e]; simpl;
     [destruct (truthy parent) eqn:Hp; simpl;
      [destruct (truthy (get_field parent (parentKeyField s))) eqn:Hpk; simpl;
       [unfold set_lookup; simpl;
        destruct (objectPath_set _ (lookupField s) _) as [o|] eqn:Hset; simpl|]|]|]);
    eexists _, _; (split; [reflexivity|]); simpl;
    (split; [reflexivity|]); (split; [by rewrite <-app_assoc|]);
    (split_and!;
     [split;
      [intros [? Hr]; first [discriminate Hr | exact I | by left
                            | by right; left | by right; right]
      |intros Hc; first [by eexists | destruct Hc as [Hc|[Hc|Hc]]; congruence]]
     |intros [? Hr]; first [discriminate Hr | reflexivity]
     |intros r' Hr; first [discriminate Hr
                          | injection Hr as <-; split; [reflexivity|];
                            eexists _, _; split_and!; [reflexivity|exact Hset|reflexivity]]]).
Qed.

(** C10.  Both enhanced transforms work on the record the wrapped
    transform handed on: they resolve to that record and to no other,
    they leave every other record alone, the enhanced cleanse changes no
    field of it other than [parentFieldName], and the enhanced prepare
    changes nothing that is read along a path parting ways with
    [lookupField]. *)
Theorem C10_transforms_write_one_field
    (s : Scope)
    cleanse record w h x cleaned w' r
    prepare record2 action w2 h2 x2 prepared w2' r2 :
  call_cleanse cleanse record (heap w) = (h, x) →
  handed_on x = Some cleaned →
  enhanceCleanse s cleanse record w = (w', r) →
  call_prepare prepare record2 action (heap w2) = (h2, x2) →
  handed_on x2 = Some prepared →
  enhancePrepare s prepare record2 action w2 = (w2', r2) →
  ((∃ o, r = TPromise o ∧ ∀ c, o = Resolved c → c = cleaned) ∧
   (∀ l, l ≠ cleaned → heap w' !! l = h !! l) ∧
   (∀ k, k ≠ parentFieldName s →
      prop (record_of (heap w') cleaned) k = prop (record_of h cleaned) k)) ∧
  ((∃ o, r2 = TPromise o ∧ ∀ c, o = Resolved c → c = prepared) ∧
   (∀ l, l ≠ prepared → heap w2' !! l = h2 !! l) ∧
   (∀ q, diverges (split_dots "" (lookupField s)) q = true →
      get_path (VObj (record_of (heap w2') prepared)) q
      = get_path (VObj (record_of h2 prepared)) q)).
Proof.
  intros Hc Hx Hrun Hc2 Hx2 Hrun2. split.
  - unfold enhanceCleanse in Hrun. rewrite Hc in Hrun.
    assert (∃ o, (((heap w' = h ∧ ∀ c, o = Resolved c → c = cleaned) ∨
                  (∃ v, heap w' = <[cleaned := set_prop (record_of h cleaned)
                                                 (parentFieldName s) v]> h
                        ∧ o = Resolved cleaned))) ∧ r = TPromise o)
      as (o & Hcases & ->).
    { destruct x as [?|[?|?]|?]; simpl in Hx; simplify_eq; simpl in Hrun;
        repeat match type of Hrun with
               | context [truthy ?v] => destruct (truthy v); simpl in Hrun
               | context [Collection.get ?c ?q] => destruct (Collection.get c q); simpl in Hrun
               end; simplify_eq/=; eexists; (split; [|reflexivity]);
          first [left; split; [reflexivity|by intros ? [= <-]]
                |left; split; [reflexivity|by intros ? ?]
                |right; eexists; split; reflexivity]. }
    destruct Hcases as [[Hh Ho]|(v & Hh & ->)]; rewrite Hh.
    + split_and!; [eauto|done|done].
    + split_and!.
      * eexists; split; [done|]. by intros ? [= <-].
      * intros l Hl. by rewrite lookup_insert_ne.
      * intros k Hk. unfold record_of at 1. rewrite lookup_insert_eq. simpl.
        by apply prop_set_prop_ne.
  - unfold enhancePrepare in Hrun2. rewrite Hc2 in Hrun2.
    assert (∃ o, (((heap w2' = h2 ∧ ∀ c, o = Resolved c → c = prepared) ∨
                  (∃ v o', objectPath_set (record_of h2 prepared) (lookupField s) v = Some o'
                           ∧ heap w2' = <[prepared := o']> h2
                           ∧ o = Resolved prepared))) ∧ r2 = TPromise o)
      as (o & Hcases & ->).
    { unfold set_lookup in Hrun2.
      destruct x2 as [?|[?|?]|?]; simpl in Hx2; simplify_eq; simpl in Hrun2;
        repeat match type of Hrun2 with
               | context [truthy ?v] => destruct (truthy v); simpl in Hrun2
               | context [Collection.get ?c ?q] => destruct (Collection.get c q); simpl in Hrun2
               | context [objectPath_set ?a ?b ?c] =>
                   destruct (objectPath_set a b c) eqn:?; simpl in Hrun2
               end; simplify_eq/=; eexists; (split; [|reflexivity]);
          first [left; split; [reflexivity|by intros ? [= <-]]
                |left; split; [reflexivity|by intros ? ?]
                |right; eexists _, _; split_and!; [eassumption|reflexivity..]]. }
    destruct Hcases as [[Hh Ho]|(v & o' & Hset & Hh & ->)]; rewrite Hh.
    + split_and!; [eauto|done|done].
    + split_and!.
      * eexists; split; [done|]. by intros ? [= <-].
      * intros l Hl. by rewrite lookup_insert_ne.
      * intros q Hq. unfold record_of at 1. rewrite lookup_insert_eq. simpl.
        by eapply objectPath_set_frame.
Qed.

Lemma append_empty_r (a : string) : a +:+ "" = a.
Proof.
  induction a as [|c a IH]; [done|].
  change (String c (a +:+ "") = String c a). by rewrite IH.
Qed.

Lemma append_assoc (a b c : string) : (a +:+ b) +:+ c = a +:+ (b +:+ c).
Proof.
  induction a as [|x a IH]; [done|].
  change (String x ((a +:+ b) +:+ c) = String x (a +:+ (b +:+ c))). by rewrite IH.
Qed.

(** A lookup field without a dot is a path of one segment, itself. *)
Lemma split_dots_plain cur p :
  (∀ c, In c (list_ascii_of_string p) → c ≠ "."%char) →
  split_dots cur p = [cur +:+ p].
Proof.
  revert cur. induction p as [|c p IH]; intros cur Hp; simpl.
  - by rewrite append_empty_r.
  - destruct (Ascii.eqb c ".") eqn:E.
    + apply Ascii.eqb_eq in E. exfalso. eapply Hp; [by left|done].
    + rewrite IH by (intros c' Hc'; apply Hp; by right).
      by rewrite append_assoc.
Qed.

(** With a lookup field without a dot, the enhanced prepare changes no
    other field of the record. *)
Lemma objectPath_set_plain_frame (o o' : fields) p v k :
  (∀ c, In c (list_ascii_of_string p) → c ≠ "."%char) →
  objectPath_set o p v = Some o' → k ≠ p → prop o' k = prop o k.
Proof.
  intros Hp Hset Hk.
  apply (objectPath_set_frame _ _ _ _ [k]) in Hset; [exact Hset|].
  rewrite split_dots_plain by done. change ("" +:+ p) with p. simpl.
  destruct (String.eqb p k) eqn:E; [|done]. apply String.eqb_eq in E. congruence.
Qed.

(** ** The joint object *)

(** C9.  A falsy value at [lookupField] counts as no foreign key: the
    enhanced cleanse resolves to the record the wrapped transform handed
    on without a lookup (the world is as the wrapped transform left it),
    and [onChildInserted], [onChildUpdated] and [onChildRemoved], where
    the joint has them, return [undefined] and leave the world as it
    is. *)
Theorem C9_falsy_foreign_key_is_absent
    options w0 w1 j lf cleanse record w h x cleaned child wc :
  joint options w0 = (w1, inr j) →
  Options.lookupField options = VStr lf →
  call_cleanse cleanse record (heap w) = (h, x) →
  handed_on x = Some cleaned →
  truthy (objectPath_get (VObj (record_of h cleaned)) lf) = false →
  truthy (objectPath_get (VObj child) lf) = false →
  Joint.enhanceCleanse j cleanse record w = (with_heap h w, TPromise (Resolved cleaned)) ∧
  (∀ f, Joint.onChildInserted j = Some f ∨ Joint.onChildUpdated j = Some f
        ∨ Joint.onChildRemoved j = Some f →
        f child wc = (wc, ReturnsUndefined)).
Proof.
  intros Hj Hlf Hcall Hx Hrec Hchild.
  apply joint_inv in Hj as (ce & pe & lf' & _ & _ & Hlf' & Hc & _ & _ & _ & Hrel).
  rewrite Hlf in Hlf'. injection Hlf' as <-. cbv zeta in Hc, Hrel. split.
  - rewrite Hc. unfold enhanceCleanse. rewrite Hcall.
    destruct x as [?|[?|?]|?]; simpl in Hx; simplify_eq; simpl; by rewrite Hrec.
  - intros f Hf.
    destruct (configured_name (Options.relatedListName options)) as [n|].
    + destruct Hrel as (rlf & _ & _ & Hi & Hu & Hr & _).
      rewrite Hi, Hu, Hr in Hf.
      destruct Hf as [[= <-]|[[= <-]|[= <-]]];
        unfold onChildInserted, onChildRemoved; simpl; by rewrite Hchild.
    + destruct Hrel as (_ & Hi & Hu & Hr & _). rewrite Hi, Hu, Hr in Hf.
      by destruct Hf as [?|[?|?]].
Qed.

(** X21.  When the caller gave two different arrays for [parentFields]
    and [relatedListFields] and the arrays are as construction left them,
    the enhanced cleanse of a joint, for a record whose foreign key names a
    parent, stores under [parentFieldName] what [extractNamedFields] gives
    for that parent at the fields the caller configured followed by the
    local key field of the parent collection. *)
Theorem X21_cleanse_embeds_configured_fields
    options w0 w1 j lf cleanse record w h x cleaned lookupId parent :
  joint options w0 = (w1, inr j) →
  (∀ l, Options.relatedListFields options = Some l →
        l ∈ dom (arrays w0) ∧ Options.parentFields options ≠ Given l) →
  arrays w = arrays w1 →
  Options.lookupField options = VStr lf →
  call_cleanse cleanse record (heap w) = (h, x) →
  handed_on x = Some cleaned →
  lookupId = objectPath_get (VObj (record_of h cleaned)) lf →
  truthy lookupId = true →
  Collection.get (Options.parentCollection options)
    (VObj [(Collection.getKeyField (Options.parentCollection options), lookupId)])
    = Resolved parent →
  truthy parent = true →
  ∃ w',
    Joint.enhanceCleanse j cleanse record w = (w', TPromise (Resolved cleaned)) ∧
    prop (record_of (heap w') cleaned) (Options.parentFieldName options)
    = extractNamedFields parent
        (configured_parentFields options w0
           ++ [Collection.getLocalKeyField (Options.parentCollection options)]).
Proof.
  intros Hj Hdistinct Hw Hlf Hcall Hx -> Hid Hget Hp.
  apply joint_inv in Hj as (ce & pe & lf' & _ & _ & Hlf' & Hc & _ & _ & _ & Hrel).
  rewrite Hlf in Hlf'. injection Hlf' as <-. cbv zeta in Hc, Hrel.
  assert (array_of (arrays w1) (parentFields_of options w0)
          = configured_parentFields options w0
              ++ [Collection.getLocalKeyField (Options.parentCollection options)]) as HA.
  { destruct (configured_name (Options.relatedListName options)) as [n|].
    - destruct Hrel as (rlf & Hrlf & _ & _ & _ & _ & -> & _).
      destruct (Hdistinct _ Hrlf) as [Hdom Hne].
      rewrite array_of_insert_ne; [apply array_of_insert_eq|].
      unfold parentFields_of. destruct (Options.parentFields options) as [| |l].
      + intros ->. by apply (is_fresh (dom (arrays w0))).
      + intros ->. by apply (is_fresh (dom (arrays w0))).
      + congruence.
    - destruct Hrel as (_ & _ & _ & _ & -> & _). apply array_of_insert_eq. }
  rewrite Hc. unfold enhanceCleanse. rewrite Hcall.
  destruct x as [?|[?|?]|?]; simpl in Hx; simplify_eq; simpl;
    rewrite Hid, Hget, Hp; simpl; eexists; (split; [reflexivity|]); simpl;
    unfold record_of at 1; rewrite lookup_insert_eq; simpl;
    by rewrite prop_set_prop_eq, Hw, HA.
Qed.


(** [onParentUpdated] is there exactly when the caller configured at
    least one parent field, whichever field that is. *)
Lemma onParentUpdated_exposed options w0 w1 j :
  joint options w0 = (w1, inr j) →
  is_Some (Joint.onParentUpdated j) ↔ configured_parentFields options w0 ≠ [].
Proof.
  intros Hj.
  apply joint_inv in Hj as (ce & pe & lf & _ & _ & _ & _ & _ & -> & _).
  unfold onParentUpdated_of. rewrite length_app. simpl.
  destruct (configured_parentFields options w0) as [|f fs]; simpl.
  - split; [by intros [? ?]|done].
  - replace (1 <? S (length fs + 1))%nat with true
      by (symmetry; apply Nat.ltb_lt; lia).
    split; [done|eauto].
Qed.

(** When [onParentUpdated] is there, it is the [onParentInserted] of lines
    58-61. *)
Lemma onParentUpdated_is_first_onParentInserted options w0 w1 j f :
  joint options w0 = (w1, inr j) →
  Joint.onParentUpdated j = Some f →
  ∃ ce pe lf, f = onParentInserted (closure options w0 ce pe lf).
Proof.
  intros Hj Hf.
  apply joint_inv in Hj as (ce & pe & lf & _ & _ & _ & _ & _ & Hup & _).
  rewrite Hup in Hf. unfold onParentUpdated_of in Hf.
  destruct (1 <? _)%nat; [|done]. injection Hf as <-. eauto.
Qed.

(** A lookup field without a dot, and not empty, is always writable: the
    write is the plain assignment [record[lookupField] = v]. *)
Lemma objectPath_set_plain (o : fields) p v :
  p ≠ "" → (∀ c, In c (list_ascii_of_string p) → c ≠ "."%char) →
  objectPath_set o p v = Some (set_prop o p v).
Proof.
  intros Hne Hp. unfold objectPath_set.
  destruct (String.eqb p "") eqn:E; [by apply String.eqb_eq in E|].
  by rewrite split_dots_plain.
Qed.

(** Whatever becomes of the update it issues, the [onParentInserted] of
    lines 58-61 returns [undefined]. *)
Lemma onParentInserted_returns_undefined (s : Scope) parent w :
  ∃ a1 a2, onParentInserted s parent w = (emit (Update Child a1 a2) w, ReturnsUndefined).
Proof. by eexists _, _. Qed.

(** ** The helper as the spec describes it *)

Lemma has_prop_set_prop (o : fields) k v k' :
  has_prop (set_prop o k v) k' = String.eqb k' k || has_prop o k'.
Proof.
  induction o as [|[k0 v0] o IH]; simpl.
  - by rewrite orb_false_r.
  - destruct (String.eqb k k0) eqn:E; simpl.
    + apply String.eqb_eq in E as <-. by destruct (String.eqb k' k).
    + rewrite IH. by destruct (String.eqb k' k), (String.eqb k' k0).
Qed.

Lemma has_prop_false_prop (o : fields) k : has_prop o k = false → prop o k = VUndefined.
Proof.
  induction o as [|[k0 v0] o IH]; simpl; [done|].
  destruct (String.eqb k k0); simpl; [done|apply IH].
Qed.

(** What [extractNamedFields_spec] returns has no field that was not
    named, and no field the record does not have. *)
Lemma extractNamedFields_spec_no_other_field (o : fields) names k :
  get_field (extractNamedFields_spec (VObj o) names) k ≠ VUndefined →
  In k names ∧ has_prop o k = true.
Proof.
  simpl. intros Hk.
  assert (has_prop (fold_left (λ acc k, if has_prop o k then set_prop acc k (prop o k) else acc)
                              names []) k = true) as Hhas.
  { destruct (has_prop _ k) eqn:E; [done|]. by apply has_prop_false_prop in E. }
  clear Hk. revert Hhas.
  assert (∀ acc, has_prop (fold_left (λ acc k, if has_prop o k
                                               then set_prop acc k (prop o k) else acc)
                                     names acc) k = true →
                 has_prop acc k = true ∨ (In k names ∧ has_prop o k = true)) as Hgen.
  { induction names as [|n names IH]; intros acc H; simpl in *; [by left|].
    apply IH in H as [H|[? ?]]; [|by right; split; [right|]].
    destruct (has_prop o n) eqn:En; [|by left].
    rewrite has_prop_set_prop in H. apply orb_true_iff in H as [H|H]; [|by left].
    apply String.eqb_eq in H as ->. right. split; [by left|done]. }
  intros H. by destruct (Hgen [] H).
Qed.

(** A named field the record has is copied as it is. *)
Lemma extractNamedFields_spec_named (o : fields) names k :
  In k names → has_prop o k = true →
  get_field (extractNamedFields_spec (VObj o) names) k = prop o k.
Proof.
  simpl. intros Hin Hk.
  assert (∀ acc, (In k names ∨ prop acc k = prop o k) →
                 prop (fold_left (λ acc k, if has_prop o k
                                           then set_prop acc k (prop o k) else acc)
                                 names acc) k = prop o k) as Hgen.
  { clear Hin. induction names as [|n names IH]; intros acc H; simpl in *.
    - by destruct H.
    - apply IH. destruct (String.eqb n k) eqn:E.
      + apply String.eqb_eq in E as ->. right. by rewrite Hk, prop_set_prop_eq.
      + assert (n ≠ k) by (intros ->; by rewrite String.eqb_refl in E).
        destruct H as [[?|?]|H]; [done|by left|right].
        destruct (has_prop o n); [by rewrite prop_set_prop_ne|done]. }
  apply Hgen. by left.
Qed.

(** The values the source takes for a missing foreign key. *)
Lemma falsy_values :
  Forall (λ v, truthy v = false) [VStr ""; VNum 0; VBool false; VNull; VUndefined].
Proof. repeat constructor. Qed.

End Properties.

(** ** The running example, evaluated *)

Lemma plain_built :
  joint extractNamedFields_spec checkOptions_spec Scenario.plain Scenario.start
  = (Built.plain_world, inr Built.plain_joint).
Proof. reflexivity. Qed.

Lemma with_list_built :
  joint extractNamedFields_spec checkOptions_spec Scenario.with_list Scenario.start
  = (Built.with_list_world, inr Built.with_list_joint).
Proof. reflexivity. Qed.

Import Scenario Built Edge.

(** C5 on the child that points at the unknown parent [EXT-404]. *)
Lemma C5_witness :
  enhanceCleanse extractNamedFields_spec scope None 6%positive start =
    ({| heap := records; arrays := caller_arrays;
        log := [Get Parent (VObj [("extId", VStr "EXT-404")]);
                ConsoleWarn "Account" (VStr "EXT-404")] |},
     TPromise (Resolved 6%positive)).
Proof.
  apply (C5_cleanse_soft_miss extractNamedFields_spec scope None 6%positive start
           records (TReturns 6%positive) 6%positive (VStr "EXT-404") VNull);
    reflexivity.
Defined.

(** C7, amended, on the child whose snapshot carries [extId: "EXT-9"]. *)
Lemma C7_witness :
  enhancePrepare scope None 4%positive VNull start =
    ({| heap := <[4%positive :=
                    [("id", VStr "C4");
                     ("parent", VObj [("extId", VStr "EXT-9"); ("id", VStr "P9")]);
                     ("fk", VStr "EXT-9")]]> records;
        arrays := caller_arrays; log := [] |},
     TPromise (Resolved 4%positive)).
Proof.
  apply (C7_prepare_copies_embedded_key scope None 4%positive VNull start
           records (TReturns 4%positive) 4%positive
           (VObj [("extId", VStr "EXT-9"); ("id", VStr "P9")]) (VStr "EXT-9"));
    reflexivity.
Defined.

(** C4, amended, on the child whose snapshot has the local key [P1] only:
    the parent is found and has the external key [EXT-1]. *)
Lemma C4_witness :
  ∃ w' r,
    enhancePrepare scope None 3%positive VNull start = (w', TPromise r) ∧
    arrays w' = arrays start ∧
    log w' = [GetLocalKeyField Parent; Get Parent (VStr "P1")] ∧
    ((∃ e, r = Rejected e) ↔
       match Collection.get parents (VStr "P1") with
       | Rejected _ => True
       | Resolved parent =>
           truthy parent = false
           ∨ truthy (get_field parent "extId") = false
           ∨ objectPath_set (record_of records 3%positive) "fk"
               (get_field parent "extId") = None
       end) ∧
    ((∃ e, r = Rejected e) → heap w' = records) ∧
    (∀ r', r = Resolved r' →
       r' = 3%positive ∧
       ∃ parent o,
         Collection.get parents (VStr "P1") = Resolved parent ∧
         objectPath_set (record_of records 3%positive) "fk"
           (get_field parent "extId") = Some o ∧
         heap w' = <[3%positive := o]> records).
Proof.
  apply (C4_prepare_hard_lookup scope None 3%positive VNull start
           records (TReturns 3%positive) 3%positive
           (VObj [("name", VStr "Acme"); ("id", VStr "P1")]) (VStr "P1"));
    reflexivity.
Defined.

(** C10: the enhanced cleanse on the child with a foreign key, the enhanced
    prepare on the child whose snapshot has the local key only. *)
Lemma C10_witness :
  let w' := fst (enhanceCleanse extractNamedFields_spec scope None 1%positive start) in
  let r := snd (enhanceCleanse extractNamedFields_spec scope None 1%positive start) in
  let w2' := fst (enhancePrepare scope None 3%positive VNull start) in
  let r2 := snd (enhancePrepare scope None 3%positive VNull start) in
  ((∃ o, r = TPromise o ∧ ∀ c, o = Resolved c → c = 1%positive) ∧
   (∀ l, l ≠ 1%positive → heap w' !! l = records !! l) ∧
   (∀ k, k ≠ "parent" →
      prop (record_of (heap w') 1%positive) k = prop (record_of records 1%positive) k)) ∧
  ((∃ o, r2 = TPromise o ∧ ∀ c, o = Resolved c → c = 3%positive) ∧
   (∀ l, l ≠ 3%positive → heap w2' !! l = records !! l) ∧
   (∀ q, diverges ["fk"] q = true →
      get_path (VObj (record_of (heap w2') 3%positive)) q
      = get_path (VObj (record_of records 3%positive)) q)).
Proof.
  apply (C10_transforms_write_one_field extractNamedFields_spec scope
           None 1%positive start records (TReturns 1%positive) 1%positive _ _
           None 3%positive VNull start records (TReturns 3%positive) 3%positive _ _);
    reflexivity.
Defined.

(** C9 on the joint with a related list and the child whose foreign key is
    [null]. *)
Lemma C9_witness :
  Joint.enhanceCleanse with_list_joint None 2%positive with_list_world
  = (with_heap records with_list_world, TPromise (Resolved 2%positive)) ∧
  (∀ f, Joint.onChildInserted with_list_joint = Some f
        ∨ Joint.onChildUpdated with_list_joint = Some f
        ∨ Joint.onChildRemoved with_list_joint = Some f →
        f orphan_record with_list_world = (with_list_world, ReturnsUndefined)).
Proof.
  apply (C9_falsy_foreign_key_is_absent extractNamedFields_spec checkOptions_spec
           with_list start with_list_world with_list_joint "fk"
           None 2%positive with_list_world records (TReturns 2%positive) 2%positive
           orphan_record with_list_world);
    reflexivity.
Defined.

(** X21 on the joint with a related list and the child whose foreign key
    is [EXT-1]. *)
Lemma X21_witness :
  ∃ w',
    Joint.enhanceCleanse with_list_joint None 1%positive with_list_world
    = (w', TPromise (Resolved 1%positive)) ∧
    prop (record_of (heap w') 1%positive) "parent"
    = extractNamedFields_spec acme (["name"] ++ ["id"]).
Proof.
  apply (X21_cleanse_embeds_configured_fields extractNamedFields_spec checkOptions_spec
           with_list start with_list_world with_list_joint "fk"
           None 1%positive with_list_world records (TReturns 1%positive) 1%positive
           (VStr "EXT-1") acme); try reflexivity.
  intros l [= <-]. split; [|discriminate]. apply elem_of_dom. by eexists.
Defined.


(** Counterexample to C4 as the spec words it.  The lookup field is
    [Account.Id] and the [Account] of the child is [null].  The snapshot is
    there and lacks the external key; the parent [P1] is found and has the
    external key [EXT-1]; yet the promise rejects, the write at the lookup
    field having thrown. *)
Lemma C4_counterexample :
  let snapshot := [("name", VStr "Acme"); ("id", VStr "P1")] in
  prop (record_of (heap dotted_start) 1%positive) "parent" = VObj snapshot ∧
  has_prop snapshot "extId" = false ∧
  Collection.get parents (prop snapshot "id") = Resolved acme ∧
  truthy acme = true ∧
  truthy (get_field acme "extId") = true ∧
  enhancePrepare dotted_scope None 1%positive VNull dotted_start
  = ({| heap := dotted_records; arrays := caller_arrays;
        log := [GetLocalKeyField Parent; Get Parent (VStr "P1")] |},
     TPromise (Rejected TypeError)).
Proof. split_and!; reflexivity. Qed.

(** Counterexample to C7 as the spec words it.  The lookup field is
    [Account.Id] and the [Account] of the child is [null].  The snapshot
    carries the external key [EXT-1]; no collection is called, but the key
    is not copied: the write at the lookup field throws, the promise
    rejects and the record is as it was. *)
Lemma C7_counterexample :
  let snapshot := [("extId", VStr "EXT-1"); ("id", VStr "P1")] in
  prop (record_of (heap dotted_start) 2%positive) "parent" = VObj snapshot ∧
  prop snapshot "extId" = VStr "EXT-1" ∧
  enhancePrepare dotted_scope None 2%positive VNull dotted_start
  = (dotted_start, TPromise (Rejected TypeError)) ∧
  objectPath_get (VObj (record_of (heap dotted_start) 2%positive)) "Account.Id"
  = VUndefined.
Proof. split_and!; reflexivity. Qed.

(** C6 fails on the code.  The caller passes one array for [parentFields]
    and [relatedListFields]; line 112 pushes the local key of the child on
    it after line 53 has pushed the local key of the parent, so the
    snapshot stored by the enhanced cleanse also has the field [cid] of the
    parent, which is neither a configured parent field nor the local key
    of the parent. *)
Lemma C6_shared_array_leaks_child_key :
  Options.parentFields shared_array = Given 1%positive ∧
  Options.relatedListFields shared_array = Some 1%positive ∧
  array_of (arrays start) 1%positive = ["name"] ∧
  Collection.getLocalKeyField (Options.parentCollection shared_array) = "id" ∧
  ∃ w1 j w',
    joint extractNamedFields_spec checkOptions_spec shared_array start = (w1, inr j) ∧
    array_of (arrays w1) 1%positive = ["name"; "id"; "cid"] ∧
    Joint.enhanceCleanse j None 1%positive w1 = (w', TPromise (Resolved 1%positive)) ∧
    prop (record_of (heap w') 1%positive) "parent"
    = VObj [("name", VStr "Acme"); ("id", VStr "P1"); ("cid", VStr "C0")].
Proof.
  split_and!; try reflexivity. eexists _, _, _. split_and!; reflexivity.
Qed.

(** C2 fails on the code.  The child collection rejects every update.
    Without a related list, [onParentInserted] issues the update and
    returns [undefined]: nothing the caller holds rejects.  With a related
    list and no child found, [onParentInserted] issues the same update
    through [onParentUpdated] and returns a promise that resolves. *)
Lemma C2_onParentInserted_drops_rejection :
  let a1 := VObj [("parent", VObj [("name", VStr "Acme"); ("id", VStr "P1")])] in
  let a2 := VObj [("fk", VStr "EXT-1")] in
  Collection.update broken_children a1 a2 = Rejected (External (VStr "write failed")) ∧
  (∃ w1 j,
     joint extractNamedFields_spec checkOptions_spec plain_broken start = (w1, inr j) ∧
     Joint.onParentInserted j acme_record w1
     = (emit (Update Child a1 a2) w1, ReturnsUndefined)) ∧
  (∃ w1 j,
     joint extractNamedFields_spec checkOptions_spec with_list_broken start = (w1, inr j) ∧
     Joint.onParentInserted j acme_record w1
     = (emit (Find Child (VObj [("fk", VStr "EXT-1")])) (emit (Update Child a1 a2) w1),
        ReturnsPromise (Resolved VUndefined))).
Proof.
  split_and!; [reflexivity| |]; eexists _, _; (split; [reflexivity|reflexivity]).
Qed.

(** C3 fails on the code.  Building a joint pushes the local key of the
    parent on the caller's [parentFields] and the local key of the child on
    the caller's [relatedListFields]; the collections are only asked for
    their key fields. *)
Lemma C3_joint_pushes_on_caller_arrays :
  Options.parentFields with_list = Given 1%positive ∧
  Options.relatedListFields with_list = Some 2%positive ∧
  array_of (arrays start) 1%positive = ["name"] ∧
  array_of (arrays start) 2%positive = ["title"] ∧
  ∃ w1 j,
    joint extractNamedFields_spec checkOptions_spec with_list start = (w1, inr j) ∧
    array_of (arrays w1) 1%positive = ["name"; "id"] ∧
    array_of (arrays w1) 2%positive = ["title"; "id"] ∧
    log w1 = [GetKeyField Parent; GetLocalKeyField Parent; GetLocalKeyField Child].
Proof.
  split_and!; try reflexivity. eexists _, _. split_and!; reflexivity.
Qed.

(** A caller that builds two joints from one options object sees the push
    twice: its empty [parentFields] holds the local key twice, and the
    second joint has an [onParentUpdated] although no parent field was
    asked for. *)
Lemma joint_twice_on_one_options_object :
  array_of (arrays start) 4%positive = [] ∧
  ∃ w1 j1 w2 j2,
    joint extractNamedFields_spec checkOptions_spec no_fields start = (w1, inr j1) ∧
    joint extractNamedFields_spec checkOptions_spec no_fields w1 = (w2, inr j2) ∧
    Joint.onParentUpdated j1 = None ∧
    is_Some (Joint.onParentUpdated j2) ∧
    array_of (arrays w2) 4%positive = ["id"; "id"].
Proof.
  split; [reflexivity|]. eexists _, _, _, _.
  split_and!; try reflexivity. by eexists.
Qed.

(** C8 fails on the code.  The caller lists the local key of the parent and
    no other field; the joint has an [onParentUpdated] all the same. *)
Lemma C8_key_only_exposes_onParentUpdated :
  configured_parentFields key_only start = ["id"] ∧
  Collection.getLocalKeyField (Options.parentCollection key_only) = "id" ∧
  ∃ w1 j,
    joint extractNamedFields_spec checkOptions_spec key_only start = (w1, inr j) ∧
    is_Some (Joint.onParentUpdated j).
Proof.
  split_and!; try reflexivity. eexists _, _. split; [reflexivity|]. by eexists.
Qed.

(** ** More of the behaviour of the source *)

Section Behaviour.

Variable extractNamedFields : value → list string → value.
Variable checkOptions : Options.t → gmap loc (list string) → option string.

Local Abbreviation onParentInserted := (onParentInserted extractNamedFields).
Local Abbreviation enhanceCleanse := (enhanceCleanse extractNamedFields).
Local Abbreviation onChildInserted := (onChildInserted extractNamedFields).
Local Abbreviation onParentInserted_relatedList :=
  (onParentInserted_relatedList extractNamedFields).
Local Abbreviation joint := (joint extractNamedFields checkOptions).

(** The world and the array at the point where [checkOptions] runs. *)
Lemma defaults_applied options w :
  ∃ w0,
    match Options.parentFields options with
    | Given l => (Some l, w)
    | Nullish => (None, w)
    | LeftOut => let '(l, w) := new_array [] w in (Some l, w)
    end = (match Options.parentFields options with
           | Nullish => None
           | LeftOut | Given _ => Some (parentFields_of options w)
           end, w0) ∧
    heap w0 = heap w ∧ log w0 = log w ∧
    arrays w0 = arrays_at_line_50 options w.
Proof.
  unfold parentFields_of, arrays_at_line_50, new_array.
  destruct (Options.parentFields options); eexists; split_and!; reflexivity.
Qed.

Lemma as_string_None v : as_string v = None → ∀ s, v ≠ VStr s.
Proof. destruct v; simpl; congruence. Qed.

(** X1.  Construction returns a joint exactly when the three names are
    strings, [checkOptions] accepts the options, [parentFields] does not
    hold [undefined] or [null], and the fields of the related list are
    given whenever the list is named; in every other case it throws. *)
Theorem X1_joint_succeeds_iff options w :
  (∃ w1 j, joint options w = (w1, inr j)) ↔
  ((∃ ce pe lf, Options.childEntity options = VStr ce
                ∧ Options.parentEntity options = VStr pe
                ∧ Options.lookupField options = VStr lf) ∧
   checkOptions options (arrays_at_line_50 options w) = None ∧
   Options.parentFields options ≠ Nullish ∧
   (configured_name (Options.relatedListName options) ≠ None →
    is_Some (Options.relatedListFields options))).
Proof.
  destruct (defaults_applied options w) as (w0 & Hd & _ & _ & Ha).
  unfold joint. rewrite Hd, Ha. split.
  - intros (w1 & j & H).
    destruct (as_string (Options.childEntity options)) as [ce|] eqn:Hce; [|done].
    destruct (as_string (Options.parentEntity options)) as [pe|] eqn:Hpe; [|done].
    destruct (as_string (Options.lookupField options)) as [lf|] eqn:Hlf; [|done].
    apply as_string_Some in Hce, Hpe, Hlf.
    destruct (checkOptions options (arrays_at_line_50 options w)); [done|].
    destruct (Options.parentFields options) eqn:Hpf; [|done|];
      (split_and!; [by eexists _, _, _|done|done|];
       destruct (configured_name (Options.relatedListName options)); [|done];
       destruct (Options.relatedListFields options); [by eexists|done]).
  - intros ((ce & pe & lf & -> & -> & ->) & -> & Hpf & Hrel). simpl.
    destruct (Options.parentFields options); [|done|];
      (destruct (configured_name (Options.relatedListName options)); [|by eexists _, _];
       destruct Hrel as [rlf ->]; [done|]; by eexists _, _).
Qed.

(** X2.  When construction throws for a name that is not a string or on
    the word of [checkOptions], nothing has happened yet: no record and no
    array of the caller has changed and no collection has been called. *)
Theorem X2_joint_early_throw_is_clean options w w' e :
  joint options w = (w', inl e) →
  e ≠ TypeError →
  heap w' = heap w ∧ log w' = log w ∧
  (∀ l, l ∈ dom (arrays w) → arrays w' !! l = arrays w !! l).
Proof.
  destruct (defaults_applied options w) as (w0 & Hd & Hh & Hl & Ha).
  unfold joint. rewrite Hd. intros H Hne.
  assert (∀ l, l ∈ dom (arrays w) → arrays w0 !! l = arrays w !! l) as Hsame.
  { intros l Hin. rewrite Ha. unfold arrays_at_line_50.
    destruct (Options.parentFields options); [|done..].
    apply lookup_insert_ne. intros <-. by apply (is_fresh (dom (arrays w))). }
  destruct (as_string (Options.childEntity options)); [|by simplify_eq].
  destruct (as_string (Options.parentEntity options)); [|by simplify_eq].
  destruct (as_string (Options.lookupField options)); [|by simplify_eq].
  destruct (checkOptions options (arrays w0)); [by simplify_eq|].
  destruct (Options.parentFields options); [|by simplify_eq|];
    (destruct (configured_name (Options.relatedListName options)); [|done];
     destruct (Options.relatedListFields options); [done|]; by simplify_eq).
Qed.


(** X22.  When the names are strings, [checkOptions] lets the options
    through and [parentFields] holds [undefined] or [null], construction
    throws a [TypeError] at line 53: [getKeyField] of the parent has been
    called, nothing else has, and no array has changed. *)
Theorem X22_joint_nullish_parentFields options w ce pe lf :
  Options.childEntity options = VStr ce →
  Options.parentEntity options = VStr pe →
  Options.lookupField options = VStr lf →
  checkOptions options (arrays w) = None →
  Options.parentFields options = Nullish →
  joint options w = (emit (GetKeyField Parent) w, inl TypeError).
Proof.
  intros Hce Hpe Hlf Hcheck Hpf.
  unfold joint. by rewrite Hce, Hpe, Hlf, Hpf, Hcheck.
Qed.

(** X4.  A construction that succeeds changes no record, calls nothing on
    the collections but their key-field getters, and leaves alone every
    array other than [parentFields] and [relatedListFields]. *)
Theorem X4_joint_frame options w0 w1 j :
  joint options w0 = (w1, inr j) →
  heap w1 = heap w0 ∧
  (∃ calls, log w1 = log w0 ++ calls ∧ forallb asks_key_field calls = true) ∧
  (∀ l, l ≠ parentFields_of options w0 →
        Options.relatedListFields options ≠ Some l →
        arrays w1 !! l = arrays w0 !! l).
Proof.
  intros Hj.
  apply joint_inv in Hj as (ce & pe & lf & _ & _ & _ & _ & _ & _ & Hh & Hrel).
  cbv zeta in Hrel. split; [done|].
  destruct (configured_name (Options.relatedListName options)).
  - destruct Hrel as (rlf & Hrlf & _ & _ & _ & _ & -> & ->). split; [by eexists|].
    intros l Hl Hl'. rewrite lookup_insert_ne by congruence.
    unfold arrays_after_line_53. by rewrite lookup_insert_ne.
  - destruct Hrel as (_ & _ & _ & _ & -> & ->). split; [by eexists|].
    intros l Hl _. unfold arrays_after_line_53. by rewrite lookup_insert_ne.
Qed.

(** X5.  The three child hooks are there exactly when a related list is
    named, an empty name counting as none, and [onChildUpdated] is the very
    function [onChildInserted] is. *)
Theorem X5_child_hooks_exposed options w0 w1 j :
  joint options w0 = (w1, inr j) →
  (is_Some (Joint.onChildInserted j)
   ↔ ∃ n, Options.relatedListName options = Some n ∧ n ≠ "") ∧
  (is_Some (Joint.onChildRemoved j)
   ↔ ∃ n, Options.relatedListName options = Some n ∧ n ≠ "") ∧
  Joint.onChildUpdated j = Joint.onChildInserted j.
Proof.
  intros Hj.
  apply joint_inv in Hj as (ce & pe & lf & _ & _ & _ & _ & _ & _ & _ & Hrel).
  cbv zeta in Hrel. unfold configured_name in Hrel.
  destruct (Options.relatedListName options) as [n|].
  - destruct (String.eqb n "") eqn:E.
    + apply String.eqb_eq in E as ->.
      destruct Hrel as (_ & -> & -> & -> & _).
      split_and!; [| |done]; (split; [by intros [? ?]|by intros (? & [= <-] & ?)]).
    + assert (n ≠ "") by (intros ->; by rewrite String.eqb_refl in E).
      destruct Hrel as (rlf & _ & _ & -> & -> & -> & _).
      split_and!; [| |done]; (split; [by eexists|by eexists]).
  - destruct Hrel as (_ & -> & -> & -> & _).
    split_and!; [| |done]; (split; [by intros [? ?]|by intros (? & ? & ?)]).
Qed.

(** X6.  For a child with a truthy foreign key, [onChildInserted] (and so
    [onChildUpdated]) sends one upsert to the parent collection: the parent
    is named by its external key, the entry is the extraction of the child
    at [relatedListFields], the entry key is the local key field of the
    child collection; the hook returns the promise of that call, so that a
    failed upsert rejects the hook.  Construction has put the local key of
    the child at the end of [relatedListFields]. *)
Theorem X6_onChildInserted_upserts options w0 w1 j n rlf lf f child w fk :
  joint options w0 = (w1, inr j) →
  configured_name (Options.relatedListName options) = Some n →
  Options.relatedListFields options = Some rlf →
  Options.lookupField options = VStr lf →
  Joint.onChildInserted j = Some f →
  fk = objectPath_get (VObj child) lf →
  truthy fk = true →
  let pc := Options.parentCollection options in
  let ck := Collection.getLocalKeyField (Options.childCollection options) in
  let criteria := VObj [(Collection.getKeyField pc, fk)] in
  let entry := extractNamedFields (VObj child) (array_of (arrays w) rlf) in
  f child w =
    (emit (AddOrUpdateChildInCollection Parent criteria n entry ck) w,
     ReturnsPromise (Collection.addOrUpdateChildInCollection pc criteria n entry ck)) ∧
  array_of (arrays w1) rlf = array_of (arrays_after_line_53 options w0) rlf ++ [ck].
Proof.
  intros Hj Hn Hrlf Hlf Hf -> Hfk pc ck criteria entry.
  apply joint_inv in Hj as (ce & pe & lf' & _ & _ & Hlf' & _ & _ & _ & _ & Hrel).
  rewrite Hlf in Hlf'. injection Hlf' as <-. cbv zeta in Hrel. rewrite Hn in Hrel.
  destruct Hrel as (rlf' & Hrlf' & _ & Hi & _ & _ & -> & _).
  rewrite Hrlf in Hrlf'. injection Hrlf' as <-.
  rewrite Hi in Hf. injection Hf as <-. split.
  - unfold onChildInserted. simpl. by rewrite Hfk.
  - apply array_of_insert_eq.
Qed.

(** X7.  For a child with a truthy foreign key, [onChildRemoved] sends one
    removal to the parent collection: the parent is named by its external
    key, the entry by the value the child has at the local key field of the
    child collection; the hook returns the promise of that call. *)
Theorem X7_onChildRemoved_removes options w0 w1 j n lf f child w fk :
  joint options w0 = (w1, inr j) →
  configured_name (Options.relatedListName options) = Some n →
  Options.lookupField options = VStr lf →
  Joint.onChildRemoved j = Some f →
  fk = objectPath_get (VObj child) lf →
  truthy fk = true →
  let pc := Options.parentCollection options in
  let ck := Collection.getLocalKeyField (Options.childCollection options) in
  let criteria := VObj [(Collection.getKeyField pc, fk)] in
  let entryKey := VObj [(ck, prop child ck)] in
  f child w =
    (emit (RemoveChildFromCollection Parent criteria n entryKey) w,
     ReturnsPromise (Collection.removeChildFromCollection pc criteria n entryKey)).
Proof.
  intros Hj Hn Hlf Hf -> Hfk pc ck criteria entryKey.
  apply joint_inv in Hj as (ce & pe & lf' & _ & _ & Hlf' & _ & _ & _ & _ & Hrel).
  rewrite Hlf in Hlf'. injection Hlf' as <-. cbv zeta in Hrel. rewrite Hn in Hrel.
  destruct Hrel as (rlf & _ & _ & _ & _ & Hr & _).
  rewrite Hr in Hf. injection Hf as <-.
  unfold onChildRemoved. simpl. by rewrite Hfk.
Qed.

(** X8.  A record with nothing truthy under [parentFieldName] passes
    through the enhanced prepare: the promise resolves to the record the
    wrapped transform handed on, no record is written and no collection is
    called. *)
Theorem X8_prepare_without_parent (s : Scope) prepare record action w h x prepared :
  call_prepare prepare record action (heap w) = (h, x) →
  handed_on x = Some prepared →
  truthy (prop (record_of h prepared) (parentFieldName s)) = false →
  enhancePrepare s prepare record action w = (with_heap h w, TPromise (Resolved prepared)).
Proof.
  intros Hcall Hx He. unfold enhancePrepare. rewrite Hcall.
  destruct x as [?|[?|?]|?]; simpl in Hx; simplify_eq; simpl; by rewrite He.
Qed.

(** X9.  When the wrapped transform hands on no record, the enhanced
    transform gives back what the wrapped transform gave and does nothing
    else: a rejected promise stays that rejected promise, and a throw stays
    a throw (it is not turned into a rejection, the wrapped transform being
    called before [Promise.resolve]). *)
Theorem X9_wrapped_failure_passes_through
    (s : Scope) cleanse record w h x prepare record2 action w2 h2 x2 :
  call_cleanse cleanse record (heap w) = (h, x) →
  handed_on x = None →
  call_prepare prepare record2 action (heap w2) = (h2, x2) →
  handed_on x2 = None →
  enhanceCleanse s cleanse record w = (with_heap h w, x) ∧
  enhancePrepare s prepare record2 action w2 = (with_heap h2 w2, x2).
Proof.
  intros Hc Hx Hc2 Hx2. unfold enhanceCleanse, enhancePrepare. rewrite Hc, Hc2.
  by destruct x as [?|[?|?]|?], x2 as [?|[?|?]|?].
Qed.

(** X10.  When the lookup of the enhanced cleanse rejects, the promise of
    the enhanced cleanse rejects for the same reason; the record is as the
    wrapped transform left it and nothing is logged but the lookup: the
    failure of the collection is not taken for a missing parent. *)
Theorem X10_cleanse_lookup_rejection
    (s : Scope) cleanse record w h x cleaned lookupId e :
  call_cleanse cleanse record (heap w) = (h, x) →
  handed_on x = Some cleaned →
  lookupId = objectPath_get (VObj (record_of h cleaned)) (lookupField s) →
  truthy lookupId = true →
  Collection.get (parentCollection s) (VObj [(parentKeyField s, lookupId)]) = Rejected e →
  enhanceCleanse s cleanse record w =
    ({| heap := h; arrays := arrays w;
        log := log w ++ [Get Parent (VObj [(parentKeyField s, lookupId)])] |},
     TPromise (Rejected e)).
Proof.
  intros Hcall Hx -> Hid Hget. unfold enhanceCleanse. rewrite Hcall.
  destruct x as [?|[?|?]|?]; simpl in Hx; simplify_eq; simpl; by rewrite Hid, Hget.
Qed.

(** X11.  When the lookup of the enhanced prepare rejects, the promise of
    the enhanced prepare rejects for the same reason and the record is as
    the wrapped transform left it. *)
Theorem X11_prepare_lookup_rejection
    (s : Scope) prepare record action w h x prepared embedded parentKey e :
  call_prepare prepare record action (heap w) = (h, x) →
  handed_on x = Some prepared →
  embedded = prop (record_of h prepared) (parentFieldName s) →
  truthy embedded = true →
  truthy (get_field embedded (parentKeyField s)) = false →
  parentKey = get_field embedded (Collection.getLocalKeyField (parentCollection s)) →
  Collection.get (parentCollection s) parentKey = Rejected e →
  enhancePrepare s prepare record action w =
    ({| heap := h; arrays := arrays w;
        log := log w ++ [GetLocalKeyField Parent; Get Parent parentKey] |},
     TPromise (Rejected e)).
Proof.
  intros Hcall Hx -> He Hk -> Hget. unfold enhancePrepare. rewrite Hcall.
  destruct x as [?|[?|?]|?]; simpl in Hx; simplify_eq; simpl;
    rewrite He, Hk, Hget; simpl; unfold emit; simpl; by rewrite <-app_assoc.
Qed.



(** X13.  No hook of a joint writes a record or an array of field names:
    [onParentInserted], [onParentUpdated] and the three child hooks only
    add calls to the log. *)
Theorem X13_hooks_only_call_collections options w0 w1 j f x w :
  joint options w0 = (w1, inr j) →
  (Joint.onParentInserted j = f ∨ Joint.onParentUpdated j = Some f
   ∨ Joint.onChildInserted j = Some f ∨ Joint.onChildUpdated j = Some f
   ∨ Joint.onChildRemoved j = Some f) →
  heap (fst (f x w)) = heap w ∧
  arrays (fst (f x w)) = arrays w ∧
  ∃ calls, log (fst (f x w)) = log w ++ calls.
Proof.
  intros Hj Hf.
  apply joint_inv in Hj as (ce & pe & lf & _ & _ & _ & _ & _ & Hup & _ & Hrel).
  cbv zeta in Hup, Hrel.
  assert (∀ s, heap (fst (onParentInserted s x w)) = heap w
               ∧ arrays (fst (onParentInserted s x w)) = arrays w
               ∧ ∃ calls, log (fst (onParentInserted s x w)) = log w ++ calls) as Hbase.
  { intros s. split_and!; [done..|]. by eexists. }
  assert (∀ s n rlf ck, heap (fst (onChildInserted s n rlf ck x w)) = heap w
               ∧ arrays (fst (onChildInserted s n rlf ck x w)) = arrays w
               ∧ ∃ calls, log (fst (onChildInserted s n rlf ck x w)) = log w ++ calls)
    as Hins.
  { intros s n rlf ck. unfold onChildInserted.
    destruct (truthy _); simpl; split_and!; try done;
      [by eexists|by exists []; rewrite app_nil_r]. }
  assert (∀ s n ck, heap (fst (onChildRemoved s n ck x w)) = heap w
               ∧ arrays (fst (onChildRemoved s n ck x w)) = arrays w
               ∧ ∃ calls, log (fst (onChildRemoved s n ck x w)) = log w ++ calls)
    as Hrem.
  { intros s n ck. unfold onChildRemoved.
    destruct (truthy _); simpl; split_and!; try done;
      [by eexists|by exists []; rewrite app_nil_r]. }
  assert (∀ s n rlf,
            heap (fst (onParentInserted_relatedList s (Joint.onParentUpdated j) n rlf x w))
            = heap w
            ∧ arrays (fst (onParentInserted_relatedList s (Joint.onParentUpdated j) n rlf x w))
              = arrays w
            ∧ ∃ calls,
                log (fst (onParentInserted_relatedList s (Joint.onParentUpdated j) n rlf x w))
                = log w ++ calls) as Hlist.
  { intros s n rlf. rewrite Hup. unfold onParentInserted_relatedList, onParentUpdated_of.
    destruct (1 <? _)%nat; simpl;
      destruct (Collection.find _ _) as [[|r recs]|e]; simpl;
      split_and!; try done; eexists; by rewrite <-?app_assoc. }
  destruct Hf as [<-|[Hf|Hf]].
  - destruct (configured_name (Options.relatedListName options)).
    + destruct Hrel as (rlf & _ & -> & _). apply Hlist.
    + destruct Hrel as (-> & _). apply Hbase.
  - rewrite Hup in Hf. unfold onParentUpdated_of in Hf.
    destruct (1 <? _)%nat; [|done]. injection Hf as <-. apply Hbase.
  - destruct (configured_name (Options.relatedListName options)).
    + destruct Hrel as (rlf & _ & _ & Hi & Hu & Hr & _). rewrite Hi, Hu, Hr in Hf.
      destruct Hf as [[= <-]|[[= <-]|[= <-]]]; [apply Hins..|apply Hrem].
    + destruct Hrel as (_ & Hi & Hu & Hr & _). rewrite Hi, Hu, Hr in Hf.
      by destruct Hf as [?|[?|?]].
Qed.

(** X15.  Without a related list, [onParentInserted] of a joint sends one
    update to the child collection and returns [undefined]: the first
    argument puts under [parentFieldName] the extraction of the parent at
    the configured fields followed by the local key field of the parent
    collection, the second puts the external key of the parent under
    [lookupField].  The arrays are as construction left them. *)
Theorem X15_onParentInserted_propagates options w0 w1 j lf parent w :
  joint options w0 = (w1, inr j) →
  configured_name (Options.relatedListName options) = None →
  Options.lookupField options = VStr lf →
  arrays w = arrays w1 →
  let pc := Options.parentCollection options in
  let snapshot :=
    extractNamedFields (VObj parent)
      (configured_parentFields options w0 ++ [Collection.getLocalKeyField pc]) in
  Joint.onParentInserted j parent w =
    (emit (Update Child
             (VObj [(Options.parentFieldName options, snapshot)])
             (VObj [(lf, prop parent (Collection.getKeyField pc))])) w,
     ReturnsUndefined).
Proof.
  intros Hj Hn Hlf Hw pc snapshot.
  apply joint_inv in Hj as (ce & pe & lf' & _ & _ & Hlf' & _ & _ & _ & _ & Hrel).
  rewrite Hlf in Hlf'. injection Hlf' as <-. cbv zeta in Hrel. rewrite Hn in Hrel.
  destruct Hrel as (-> & _ & _ & _ & Ha & _).
  unfold onParentInserted. simpl. rewrite Hw, Ha.
  unfold arrays_after_line_53. by rewrite array_of_insert_eq.
Qed.

(** X18.  When the caller leaves [parentFields] out, construction pushes
    the local key on an array of its own: every array of the caller other
    than [relatedListFields] is as it was, and the joint has no
    [onParentUpdated]. *)
Theorem X18_joint_with_default_parentFields options w0 w1 j :
  joint options w0 = (w1, inr j) →
  Options.parentFields options = LeftOut →
  (∀ l, l ∈ dom (arrays w0) → Options.relatedListFields options ≠ Some l →
        arrays w1 !! l = arrays w0 !! l) ∧
  Joint.onParentUpdated j = None.
Proof.
  intros Hj Hpf.
  apply joint_inv in Hj as (ce & pe & lf & _ & _ & _ & _ & _ & Hup & _ & Hrel).
  cbv zeta in Hup, Hrel. split.
  - intros l Hl Hne.
    assert (arrays_after_line_53 options w0 !! l = arrays w0 !! l) as HA.
    { unfold arrays_after_line_53, parentFields_of. rewrite Hpf.
      apply lookup_insert_ne. intros <-. by apply (is_fresh (dom (arrays w0))). }
    destruct (configured_name (Options.relatedListName options)).
    + destruct Hrel as (rlf & Hrlf & _ & _ & _ & _ & -> & _).
      rewrite lookup_insert_ne by congruence. done.
    + by destruct Hrel as (_ & _ & _ & _ & -> & _).
  - rewrite Hup. unfold onParentUpdated_of, configured_parentFields. by rewrite Hpf.
Qed.

(** X16.  A record that carries a snapshot under [parentFieldName] never
    leaves the enhanced prepare without a foreign key: whenever the promise
    resolves, what is read back at [lookupField] is truthy.  The lookup
    field is not the empty string. *)
Theorem X16_prepared_record_has_foreign_key
    (s : Scope) prepare record action w h x prepared w' :
  call_prepare prepare record action (heap w) = (h, x) →
  handed_on x = Some prepared →
  truthy (prop (record_of h prepared) (parentFieldName s)) = true →
  lookupField s ≠ "" →
  enhancePrepare s prepare record action w = (w', TPromise (Resolved prepared)) →
  truthy (objectPath_get (VObj (record_of (heap w') prepared)) (lookupField s)) = true.
Proof.
  intros Hcall Hx He Hlf Hrun. unfold enhancePrepare in Hrun. rewrite Hcall in Hrun.
  assert (∀ v w0 w1, heap w0 = h → truthy v = true →
                     set_lookup s prepared v w0 = (w1, Resolved prepared) →
                     truthy (objectPath_get (VObj (record_of (heap w1) prepared))
                               (lookupField s)) = true) as Hset.
  { intros v w0 w1 Hh Hv Hs. unfold set_lookup in Hs. rewrite Hh in Hs.
    destruct (objectPath_set (record_of h prepared) (lookupField s) v) as [o|] eqn:Ho;
      [|done].
    injection Hs as <-. simpl. unfold record_of at 1. rewrite lookup_insert_eq. simpl.
    by rewrite (objectPath_get_set _ _ _ _ Hlf Ho). }
  destruct x as [?|[?|?]|?]; simpl in Hx; simplify_eq; simpl in Hrun;
    rewrite He in Hrun; simpl in Hrun.
  all: destruct (truthy (get_field _ (parentKeyField s))) eqn:Hk; simpl in Hrun.
  all: try (destruct (Collection.get _ _) as [parent|e]; simpl in Hrun; [|by simplify_eq];
      destruct (truthy parent); simpl in Hrun; [|by simplify_eq];
      destruct (truthy (get_field parent (parentKeyField s))) eqn:Hpk; simpl in Hrun;
        [|by simplify_eq]).
  all: match type of Hrun with
       | context [set_lookup ?s0 ?p0 ?v ?w0] =>
           destruct (set_lookup s0 p0 v w0) as [w1 o] eqn:Hs; simplify_eq;
             eapply (Hset v w0); [reflexivity|assumption|exact Hs]
       end.
Qed.

Lemma set_prop_set_prop (o : fields) k v v' :
  set_prop (set_prop o k v) k v' = set_prop o k v'.
Proof.
  induction o as [|[k0 v0] o IH]; simpl.
  - by rewrite String.eqb_refl.
  - destruct (String.eqb k k0) eqn:E; simpl; rewrite E; [done|by rewrite IH].
Qed.

(** Writing a field is not seen by a lookup whose first segment is another
    field. *)
Lemma objectPath_get_set_prop_other (o : fields) k v p :
  p ≠ "" → hd "" (split_dots "" p) ≠ k →
  objectPath_get (VObj (set_prop o k v)) p = objectPath_get (VObj o) p.
Proof.
  intros Hp Hk. unfold objectPath_get.
  destruct (String.eqb p "") eqn:E; [by apply String.eqb_eq in E|].
  pose proof (split_dots_nonempty "" p) as Hne.
  destruct (split_dots "" p) as [|k0 rest]; [done|]. simpl in *.
  by rewrite prop_set_prop_ne.
Qed.

(** X17.  Cleansing again converges: with no wrapped transform, a second
    run of the enhanced cleanse on the record the first run left settles
    the same way and leaves every record as the first run left it.  The
    lookup field is not empty and does not start at [parentFieldName]. *)
Theorem X17_cleanse_again_changes_nothing (s : Scope) record w w1 r1 :
  lookupField s ≠ "" →
  hd "" (split_dots "" (lookupField s)) ≠ parentFieldName s →
  enhanceCleanse s None record w = (w1, r1) →
  ∃ w2, enhanceCleanse s None record w1 = (w2, r1) ∧ heap w2 = heap w1.
Proof.
  intros Hlf Hhd Hrun. unfold enhanceCleanse in *. simpl in *.
  destruct (truthy (objectPath_get (VObj (record_of (heap w) record)) (lookupField s)))
    eqn:Hid; simpl in Hrun.
  - destruct (Collection.get (parentCollection s) _) as [parent|e] eqn:Hget;
      simpl in Hrun.
    + destruct (truthy parent) eqn:Hp; simpl in Hrun; simplify_eq; simpl.
      * set (o1 := set_prop (record_of (heap w) record) (parentFieldName s) _).
        assert (record_of (<[record := o1]> (heap w)) record = o1) as Hrec
          by (unfold record_of; by rewrite lookup_insert_eq).
        assert (objectPath_get (VObj o1) (lookupField s)
                = objectPath_get (VObj (record_of (heap w) record)) (lookupField s))
          as Hsame by (by apply objectPath_get_set_prop_other).
        rewrite !Hrec, !Hsame, Hid. simpl. rewrite Hget, Hp.
        eexists. split; [reflexivity|]. simpl.
        subst o1. by rewrite set_prop_set_prop, insert_insert_eq.
      * rewrite Hid. simpl. rewrite Hget, Hp. by eexists.
    + simplify_eq. simpl. rewrite Hid. simpl. rewrite Hget. by eexists.
  - simplify_eq. simpl. rewrite Hid. by eexists.
Qed.

(** X14.  A joint has an [onParentUpdated] exactly when the caller
    configured at least one parent field, whichever it is; without a
    related list it is then the very function [onParentInserted] is. *)
Theorem X14_onParentUpdated_when_fields_configured options w0 w1 j :
  joint options w0 = (w1, inr j) →
  (is_Some (Joint.onParentUpdated j) ↔ configured_parentFields options w0 ≠ []) ∧
  (configured_name (Options.relatedListName options) = None →
   ∀ f, Joint.onParentUpdated j = Some f → f = Joint.onParentInserted j).
Proof.
  intros Hj.
  apply joint_inv in Hj as (ce & pe & lf & _ & _ & _ & _ & _ & Hup & _ & Hrel).
  cbv zeta in Hup, Hrel. rewrite Hup. unfold onParentUpdated_of.
  rewrite length_app. simpl. split.
  - destruct (configured_parentFields options w0) as [|x xs]; simpl.
    + split; [by intros [? ?]|done].
    + replace (1 <? S (length xs + 1))%nat with true
        by (symmetry; apply Nat.ltb_lt; lia).
      split; [done|eauto].
  - intros Hn f Hf. rewrite Hn in Hrel. destruct Hrel as (-> & _).
    destruct (1 <? _)%nat; [|done]. by injection Hf as <-.
Qed.

Lemma set_path_again p : ∀ (o o' : fields) v,
  set_path o p v = Some o' → set_path o' p v = Some o'.
Proof.
  induction p as [|k rest IH]; intros o o' v Hset; [by injection Hset as <-|].
  destruct rest as [|k2 rest'].
  - injection Hset as <-. simpl. by rewrite set_prop_set_prop.
  - change (set_path o (k :: k2 :: rest') v)
      with (match prop o k with
            | VUndefined => o' ← set_path [] (k2 :: rest') v; Some (set_prop o k (VObj o'))
            | VObj sub => o' ← set_path sub (k2 :: rest') v; Some (set_prop o k (VObj o'))
            | _ => None
            end) in Hset.
    destruct (prop o k); try done;
      match type of Hset with
      | context [set_path ?a ?b ?c] => destruct (set_path a b c) as [sub'|] eqn:Es; [|done]
      end; simpl in Hset; injection Hset as <-;
      change (set_path ?a (k :: k2 :: rest') v)
        with (match prop a k with
              | VUndefined => o' ← set_path [] (k2 :: rest') v; Some (set_prop a k (VObj o'))
              | VObj sub => o' ← set_path sub (k2 :: rest') v; Some (set_prop a k (VObj o'))
              | _ => None
              end);
      rewrite prop_set_prop_eq, (IH _ _ _ Es); simpl; by rewrite set_prop_set_prop.
Qed.

(** Writing the same value at the same path once more changes nothing. *)
Lemma objectPath_set_again (o o' : fields) p v :
  objectPath_set o p v = Some o' → objectPath_set o' p v = Some o'.
Proof.
  unfold objectPath_set. destruct (String.eqb p ""); [by intros [= ->]|].
  apply set_path_again.
Qed.

(** A write at a path leaves alone every field the path does not start
    at. *)
Lemma objectPath_set_other_field (o o' : fields) p v k :
  objectPath_set o p v = Some o' → hd "" (split_dots "" p) ≠ k → prop o' k = prop o k.
Proof.
  intros Hset Hk.
  apply (objectPath_set_frame _ _ _ _ [k]) in Hset; [exact Hset|].
  pose proof (split_dots_nonempty "" p) as Hne.
  destruct (split_dots "" p) as [|k0 rest]; [done|]. simpl in *.
  destruct (String.eqb k0 k) eqn:E; [|done]. apply String.eqb_eq in E. congruence.
Qed.

(** X19.  Preparing again converges: with no wrapped transform, a second
    run of the enhanced prepare on the record the first run left settles
    the same way and leaves every record as the first run left it.  The
    lookup field does not start at [parentFieldName]. *)
Theorem X19_prepare_again_changes_nothing (s : Scope) record action w w1 r1 :
  hd "" (split_dots "" (lookupField s)) ≠ parentFieldName s →
  enhancePrepare s None record action w = (w1, r1) →
  ∃ w2, enhancePrepare s None record action w1 = (w2, r1) ∧ heap w2 = heap w1.
Proof.
  intros Hhd Hrun. unfold enhancePrepare in *. simpl in *.
  assert (∀ v w0,
            heap w0 = heap w →
            ∀ wa ra, set_lookup s record v w0 = (wa, ra) →
            prop (record_of (heap wa) record) (parentFieldName s)
            = prop (record_of (heap w) record) (parentFieldName s)
            ∧ ∀ wb, heap wb = heap wa →
                    ∃ wc, set_lookup s record v wb = (wc, ra) ∧ heap wc = heap wa)
    as Hset.
  { intros v w0 Hh wa ra Hs. unfold set_lookup in *. rewrite Hh in Hs.
    destruct (objectPath_set (record_of (heap w) record) (lookupField s) v) as [o|] eqn:Ho;
      simplify_eq; simpl.
    - assert (record_of (<[record := o]> (heap w)) record = o) as Hrec
        by (unfold record_of; by rewrite lookup_insert_eq).
      rewrite Hrec. split; [by eapply objectPath_set_other_field|].
      intros wb Hb. rewrite Hb, Hrec, (objectPath_set_again _ _ _ _ Ho).
      eexists. split; [reflexivity|]. simpl. by rewrite insert_insert_eq.
    - split; [by rewrite Hh|]. intros wb Hb. rewrite Hb, Hh, Ho.
      eexists. split; [reflexivity|congruence]. }
  destruct (truthy (prop (record_of (heap w) record) (parentFieldName s))) eqn:He;
    simpl in Hrun; [|simplify_eq; simpl; rewrite He; by eexists].
  destruct (truthy (get_field (prop (record_of (heap w) record) (parentFieldName s))
                      (parentKeyField s))) eqn:Hk; simpl in Hrun.
  - destruct (set_lookup s record _ _) as [wa ra] eqn:Hs. simplify_eq.
    eapply Hset in Hs as [Hp Hagain]; [|reflexivity].
    rewrite Hp, He, Hk. simpl.
    destruct (Hagain (with_heap (heap w1) w1) eq_refl) as (wc & -> & Hc). by eexists.
  - destruct (Collection.get (parentCollection s) _) as [parent|e] eqn:Hget;
      simpl in Hrun; [|simplify_eq; simpl; rewrite He, Hk; simpl; rewrite Hget; by eexists].
    destruct (truthy parent) eqn:Hpar; simpl in Hrun;
      [|simplify_eq; simpl; rewrite He, Hk; simpl; rewrite Hget, Hpar; by eexists].
    destruct (truthy (get_field parent (parentKeyField s))) eqn:Hpk; simpl in Hrun;
      [|simplify_eq; simpl; rewrite He, Hk; simpl; rewrite Hget, Hpar; simpl;
        rewrite Hpk; by eexists].
    destruct (set_lookup s record _ _) as [wa ra] eqn:Hs. simplify_eq.
    eapply Hset in Hs as [Hp Hagain]; [|reflexivity].
    rewrite Hp, He, Hk. simpl. rewrite Hget, Hpar. simpl. rewrite Hpk. simpl.
    match goal with
    | |- context [set_lookup s record ?v ?wb] =>
        destruct (Hagain wb eq_refl) as (wc & -> & Hc)
    end. by eexists.
Qed.

(** X20.  With a related list and no parent field configured, the joint
    has no [onParentUpdated], and its [onParentInserted] sends no update to
    the child collection: it queries the children and, when there are any,
    sends one update to the parent collection; nothing else is called. *)
Theorem X20_list_only_joint_never_updates_children options w0 w1 j n parent w :
  joint options w0 = (w1, inr j) →
  configured_name (Options.relatedListName options) = Some n →
  configured_parentFields options w0 = [] →
  Joint.onParentUpdated j = None ∧
  ∃ rlf lf,
    Options.relatedListFields options = Some rlf ∧
    Options.lookupField options = VStr lf ∧
    let pk := Collection.getKeyField (Options.parentCollection options) in
    let query := VObj [(lf, prop parent pk)] in
    Joint.onParentInserted j parent w =
      match Collection.find (Options.childCollection options) query with
      | Rejected e => (emit (Find Child query) w, ReturnsPromise (Rejected e))
      | Resolved [] => (emit (Find Child query) w, ReturnsPromise (Resolved VUndefined))
      | Resolved recs =>
          let children := map (λ r, extractNamedFields r (array_of (arrays w) rlf)) recs in
          let fieldsToSet := VObj [(n, VArr children)] in
          let matchCriteria := VObj [(pk, prop parent pk)] in
          (emit (Update Parent fieldsToSet matchCriteria) (emit (Find Child query) w),
           ReturnsPromise
             (Collection.update (Options.parentCollection options)
                fieldsToSet matchCriteria))
      end ∧
    ∃ calls,
      log (fst (Joint.onParentInserted j parent w)) = log w ++ calls ∧
      forallb (λ e, negb (updates_child e)) calls = true.
Proof.
  intros Hj Hn Hc.
  apply joint_inv in Hj as (ce & pe & lf & _ & _ & Hlf & _ & _ & Hup & _ & Hrel).
  cbv zeta in Hup, Hrel. rewrite Hn in Hrel. destruct Hrel as (rlf & Hrlf & Hins & _).
  assert (Joint.onParentUpdated j = None) as Hnone.
  { rewrite Hup. unfold onParentUpdated_of. by rewrite Hc. }
  split; [done|]. exists rlf, lf. split; [done|]. split; [done|].
  cbv zeta. rewrite Hins, Hnone. unfold onParentInserted_relatedList. simpl.
  destruct (Collection.find _ _) as [[|r recs]|e]; simpl;
    (split; [reflexivity|]);
    first [ by eexists [_] | eexists [_; _]; by rewrite <-app_assoc ].
Qed.

End Behaviour.

(** ** The further properties on the running example *)

(** X2 on options whose [lookupField] is a number. *)
Lemma X2_witness :
  heap start = heap start ∧ log start = log start ∧
  (∀ l, l ∈ dom (arrays start) → arrays start !! l = arrays start !! l).
Proof.
  apply (X2_joint_early_throw_is_clean extractNamedFields_spec checkOptions_spec
           bad_lookupField start start (InvalidOption "lookupField" (VNum 7)));
    [reflexivity|discriminate].
Defined.


(** X22 on options whose [parentFields] holds [undefined]. *)
Lemma X22_witness :
  joint extractNamedFields_spec checkOptions_spec undefined_fields start
  = (emit (GetKeyField Parent) start, inl TypeError).
Proof.
  apply (X22_joint_nullish_parentFields extractNamedFields_spec checkOptions_spec
           undefined_fields start "Task" "Account" "fk"); reflexivity.
Defined.

(** X4 on the joint with a related list. *)
Lemma X4_witness :
  heap with_list_world = heap start ∧
  (∃ calls, log with_list_world = log start ++ calls
            ∧ forallb asks_key_field calls = true) ∧
  (∀ l, l ≠ parentFields_of with_list start →
        Options.relatedListFields with_list ≠ Some l →
        arrays with_list_world !! l = arrays start !! l).
Proof.
  apply (X4_joint_frame extractNamedFields_spec checkOptions_spec
           with_list start with_list_world with_list_joint). reflexivity.
Defined.

(** X5 on the joint with a related list. *)
Lemma X5_witness :
  (is_Some (Joint.onChildInserted with_list_joint)
   ↔ ∃ n, Options.relatedListName with_list = Some n ∧ n ≠ "") ∧
  (is_Some (Joint.onChildRemoved with_list_joint)
   ↔ ∃ n, Options.relatedListName with_list = Some n ∧ n ≠ "") ∧
  Joint.onChildUpdated with_list_joint = Joint.onChildInserted with_list_joint.
Proof.
  apply (X5_child_hooks_exposed extractNamedFields_spec checkOptions_spec
           with_list start with_list_world with_list_joint). reflexivity.
Defined.

(** X6 on the child [C1] of parent [EXT-1]. *)
Lemma X6_witness :
  onChildInserted extractNamedFields_spec scope "tasks" 2%positive "id"
    task_record with_list_world =
    (emit (AddOrUpdateChildInCollection Parent (VObj [("extId", VStr "EXT-1")]) "tasks"
             (VObj [("title", VStr "Pipe"); ("id", VStr "C1")]) "id") with_list_world,
     ReturnsPromise (Resolved VUndefined)) ∧
  array_of (arrays with_list_world) 2%positive = ["title"] ++ ["id"].
Proof.
  apply (X6_onChildInserted_upserts extractNamedFields_spec checkOptions_spec
           with_list start with_list_world with_list_joint "tasks" 2%positive "fk"
           (onChildInserted extractNamedFields_spec scope "tasks" 2%positive "id")
           task_record with_list_world (VStr "EXT-1")); reflexivity.
Defined.

(** X7 on the child [C1] of parent [EXT-1]. *)
Lemma X7_witness :
  onChildRemoved scope "tasks" "id" task_record with_list_world =
    (emit (RemoveChildFromCollection Parent (VObj [("extId", VStr "EXT-1")]) "tasks"
             (VObj [("id", VStr "C1")])) with_list_world,
     ReturnsPromise (Resolved VUndefined)).
Proof.
  apply (X7_onChildRemoved_removes extractNamedFields_spec checkOptions_spec
           with_list start with_list_world with_list_joint "tasks" "fk"
           (onChildRemoved scope "tasks" "id")
           task_record with_list_world (VStr "EXT-1")); reflexivity.
Defined.

(** X8 on the child at 1, which has no snapshot. *)
Lemma X8_witness :
  enhancePrepare scope None 1%positive VNull start
  = (with_heap records start, TPromise (Resolved 1%positive)).
Proof.
  apply (X8_prepare_without_parent scope None 1%positive VNull start
           records (TReturns 1%positive) 1%positive); reflexivity.
Defined.

(** X9 with a cleanse that rejects and a prepare that throws. *)
Lemma X9_witness :
  enhanceCleanse extractNamedFields_spec scope (Some rejecting_cleanse) 1%positive start
  = (with_heap records start, TPromise (Rejected (External (VStr "bad record")))) ∧
  enhancePrepare scope (Some throwing_prepare) 3%positive VNull start
  = (with_heap records start, TThrows (External (VStr "bad record"))).
Proof.
  apply (X9_wrapped_failure_passes_through extractNamedFields_spec scope
           (Some rejecting_cleanse) 1%positive start records
           (TPromise (Rejected (External (VStr "bad record"))))
           (Some throwing_prepare) 3%positive VNull start records
           (TThrows (External (VStr "bad record")))); reflexivity.
Defined.

(** X10 with the parent collection down. *)
Lemma X10_witness :
  enhanceCleanse extractNamedFields_spec down_scope None 1%positive start =
    ({| heap := records; arrays := arrays start;
        log := log start ++ [Get Parent (VObj [("extId", VStr "EXT-1")])] |},
     TPromise (Rejected (External (VStr "read failed")))).
Proof.
  apply (X10_cleanse_lookup_rejection extractNamedFields_spec down_scope
           None 1%positive start records (TReturns 1%positive) 1%positive
           (VStr "EXT-1") (External (VStr "read failed"))); reflexivity.
Defined.

(** X11 with the parent collection down. *)
Lemma X11_witness :
  enhancePrepare down_scope None 3%positive VNull start =
    ({| heap := records; arrays := arrays start;
        log := log start ++ [GetLocalKeyField Parent; Get Parent (VStr "P1")] |},
     TPromise (Rejected (External (VStr "read failed")))).
Proof.
  apply (X11_prepare_lookup_rejection down_scope
           None 3%positive VNull start records (TReturns 3%positive) 3%positive
           (VObj [("name", VStr "Acme"); ("id", VStr "P1")]) (VStr "P1")
           (External (VStr "read failed"))); reflexivity.
Defined.

(** X13 on [onParentInserted] of the joint with a related list. *)
Lemma X13_witness :
  let w' := fst (Joint.onParentInserted with_list_joint acme_record with_list_world) in
  heap w' = heap with_list_world ∧
  arrays w' = arrays with_list_world ∧
  ∃ calls, log w' = log with_list_world ++ calls.
Proof.
  apply (X13_hooks_only_call_collections extractNamedFields_spec checkOptions_spec
           with_list start with_list_world with_list_joint
           (Joint.onParentInserted with_list_joint) acme_record with_list_world);
    [reflexivity|by left].
Defined.

(** X14 on the joint without a related list. *)
Lemma X14_witness :
  (is_Some (Joint.onParentUpdated plain_joint)
   ↔ configured_parentFields plain start ≠ []) ∧
  (configured_name (Options.relatedListName plain) = None →
   ∀ f, Joint.onParentUpdated plain_joint = Some f →
        f = Joint.onParentInserted plain_joint).
Proof.
  apply (X14_onParentUpdated_when_fields_configured extractNamedFields_spec
           checkOptions_spec plain start plain_world plain_joint). reflexivity.
Defined.

(** X15 on the joint without a related list and the parent [acme]. *)
Lemma X15_witness :
  Joint.onParentInserted plain_joint acme_record plain_world =
    (emit (Update Child
             (VObj [("parent", extractNamedFields_spec (VObj acme_record)
                                 (["name"] ++ ["id"]))])
             (VObj [("fk", VStr "EXT-1")])) plain_world,
     ReturnsUndefined).
Proof.
  apply (X15_onParentInserted_propagates extractNamedFields_spec checkOptions_spec
           plain start plain_world plain_joint "fk" acme_record plain_world);
    reflexivity.
Defined.

(** X16 on the child whose snapshot has the local key only. *)
Lemma X16_witness :
  let w' := fst (enhancePrepare scope None 3%positive VNull start) in
  truthy (objectPath_get (VObj (record_of (heap w') 3%positive)) "fk") = true.
Proof.
  apply (X16_prepared_record_has_foreign_key scope None 3%positive VNull start
           records (TReturns 3%positive) 3%positive);
    [reflexivity|reflexivity|reflexivity|discriminate|reflexivity].
Defined.

(** X17 on the child with the foreign key [EXT-1]. *)
Lemma X17_witness :
  let w1 := fst (enhanceCleanse extractNamedFields_spec scope None 1%positive start) in
  ∃ w2,
    enhanceCleanse extractNamedFields_spec scope None 1%positive w1
    = (w2, TPromise (Resolved 1%positive)) ∧
    heap w2 = heap w1.
Proof.
  apply (X17_cleanse_again_changes_nothing extractNamedFields_spec scope
           1%positive start);
    [discriminate|discriminate|reflexivity].
Defined.

(** X18 on options that leave [parentFields] out. *)
Lemma X18_witness :
  let built := joint extractNamedFields_spec checkOptions_spec defaults start in
  let j := match snd built with inr j => j | inl _ => plain_joint end in
  (∀ l, l ∈ dom (arrays start) → Options.relatedListFields defaults ≠ Some l →
        arrays (fst built) !! l = arrays start !! l) ∧
  Joint.onParentUpdated j = None.
Proof.
  apply (X18_joint_with_default_parentFields extractNamedFields_spec checkOptions_spec
           defaults start); reflexivity.
Defined.

(** X19 on the child whose snapshot has the local key only. *)
Lemma X19_witness :
  let w1 := fst (enhancePrepare scope None 3%positive VNull start) in
  ∃ w2,
    enhancePrepare scope None 3%positive VNull w1 = (w2, TPromise (Resolved 3%positive)) ∧
    heap w2 = heap w1.
Proof.
  apply (X19_prepare_again_changes_nothing scope 3%positive VNull start);
    [discriminate|reflexivity].
Defined.

(** X20 on a joint with a related list and an empty [parentFields]. *)
Lemma X20_witness :
  let built := joint extractNamedFields_spec checkOptions_spec list_only start in
  let j := match snd built with inr j => j | inl _ => plain_joint end in
  Joint.onParentUpdated j = None ∧
  ∃ rlf lf,
    Options.relatedListFields list_only = Some rlf ∧
    Options.lookupField list_only = VStr lf ∧
    let pk := Collection.getKeyField (Options.parentCollection list_only) in
    let query := VObj [(lf, prop acme_record pk)] in
    Joint.onParentInserted j acme_record (fst built) =
      match Collection.find (Options.childCollection list_only) query with
      | Rejected e => (emit (Find Child query) (fst built), ReturnsPromise (Rejected e))
      | Resolved [] =>
          (emit (Find Child query) (fst built), ReturnsPromise (Resolved VUndefined))
      | Resolved recs =>
          let children :=
            map (λ r, extractNamedFields_spec r (array_of (arrays (fst built)) rlf)) recs in
          let fieldsToSet := VObj [("tasks", VArr children)] in
          let matchCriteria := VObj [(pk, prop acme_record pk)] in
          (emit (Update Parent fieldsToSet matchCriteria)
             (emit (Find Child query) (fst built)),
           ReturnsPromise
             (Collection.update (Options.parentCollection list_only)
                fieldsToSet matchCriteria))
      end ∧
    ∃ calls,
      log (fst (Joint.onParentInserted j acme_record (fst built)))
      = log (fst built) ++ calls ∧
      forallb (λ e, negb (updates_child e)) calls = true.
Proof.
  apply (X20_list_only_joint_never_updates_children extractNamedFields_spec
           checkOptions_spec list_only start
           (fst (joint extractNamedFields_spec checkOptions_spec list_only start))
           _ "tasks"); reflexivity.
Defined.
